(** * Prism Sort: a shallow embedding of [prismsort.py]

    The glitch engine of [prismsort.py] ([partialSort], [pixSort], [glitch]
    and the crop of [main]) is embedded as Rocq functions.  The calls to
    Python's [random] module are kept as nodes of a decision tree ([Rand]),
    which can be read as a probability distribution ([dist]), be replayed on
    a script of draws ([run]) or be quantified over ([always]).

    Conventions.  Python integers are [Z].  Python floats are modelled by
    exact rationals ([Q]): rounding of floating-point operations is not
    modelled.  The image object of the Pillow library is modelled by a
    record of its size and pixel function. *)

From Stdlib Require Import String Ascii DecimalString.
From Stdlib Require DecimalZ.
From Stdlib Require Import ZArith QArith Qround Qpower Lia Sorted Permutation.
From stdpp Require Import base list.

Open Scope Z_scope.

(** ** Python values, exceptions and builtins *)

Inductive exn : Type :=
| ValueError
| IndexError
| ZeroDivisionError.

Inductive result (A : Type) : Type :=
| Ok (a : A)
| Err (e : exn).
Arguments Ok {A} a.
Arguments Err {A} e.

(** A pixel is the tuple [(R, G, B)] returned by [Image.getpixel]. *)
Definition pixel : Type := Z * Z * Z.

Definition red (px : pixel) : Z := px.1.1.
Definition green (px : pixel) : Z := px.1.2.
Definition blue (px : pixel) : Z := px.2.

(** [len(l)] *)
Definition len {A} (l : list A) : Z := Z.of_nat (length l).

(** [range(lo, hi)] *)
Definition range (lo hi : Z) : list Z :=
  map (fun i => lo + Z.of_nat i) (seq 0 (Z.to_nat (hi - lo))).

(** Normalisation of a slice bound against a sequence of length [n]:
    a negative bound counts from the end, and bounds are clipped. *)
Definition slice_bound (n i : Z) : Z :=
  if i <? 0 then Z.max 0 (i + n) else Z.min i n.

(** [l[lo:hi]] *)
Definition slice {A} (l : list A) (lo hi : Z) : list A :=
  let lo' := slice_bound (len l) lo in
  let hi' := slice_bound (len l) hi in
  take (Z.to_nat (hi' - lo')) (drop (Z.to_nat lo') l).

(** [l[lo:]] *)
Definition slice_from {A} (l : list A) (lo : Z) : list A :=
  drop (Z.to_nat (slice_bound (len l) lo)) l.

(** Comparison of two tuples of three integers: [x < y] in Python compares
    the first components that differ. *)
Definition pixel_ltb (x y : pixel) : bool :=
  if red x =? red y then
    if green x =? green y then blue x <? blue y
    else green x <? green y
  else red x <? red y.

(** [sorted(l)]: a stable sort that only uses [<].  An element is placed
    before the first element of the sorted tail that is not smaller. *)
Fixpoint sorted_insert (x : pixel) (l : list pixel) : list pixel :=
  match l with
  | [] => [x]
  | y :: l' => if pixel_ltb y x then y :: sorted_insert x l' else x :: y :: l'
  end.

Definition sorted (l : list pixel) : list pixel := foldr sorted_insert [] l.

(** [list(reversed(l))] *)
Definition reversed {A} (l : list A) : list A := rev l.

(** [int(q)]: truncation towards zero. *)
Definition int (q : Q) : Z :=
  if Qle_bool 0 q then Qfloor q else Qceiling q.

(** ** The random source

    A computation that calls [random()] and [randrange] is a tree whose
    inner nodes are the calls.  [random()] is only ever used through
    [probability(p)], that is in a test [random() < p]. *)

Inductive Rand (A : Type) : Type :=
| Ret (a : A)
| Raise (e : exn)
| RandomLt (p : Q) (k : bool -> Rand A)
| Randrange (lo hi : Z) (k : Z -> Rand A).
Arguments Ret {A} a.
Arguments Raise {A} e.
Arguments RandomLt {A} p k.
Arguments Randrange {A} lo hi k.

Fixpoint rbind {A B} (m : Rand A) (f : A -> Rand B) : Rand B :=
  match m with
  | Ret a => f a
  | Raise e => Raise e
  | RandomLt p k => RandomLt p (fun b => rbind (k b) f)
  | Randrange lo hi k => Randrange lo hi (fun i => rbind (k i) f)
  end.

Declare Scope rand_scope.
Delimit Scope rand_scope with rand.
Notation "x ← y ; z" := (rbind y (fun x => z))
  (at level 20, y at level 100, z at level 200, only parsing) : rand_scope.
Open Scope rand_scope.

(** [try: m except e: h] *)
Fixpoint try_except {A} (m : Rand A) (h : exn -> Rand A) : Rand A :=
  match m with
  | Ret a => Ret a
  | Raise e => h e
  | RandomLt p k => RandomLt p (fun b => try_except (k b) h)
  | Randrange lo hi k => Randrange lo hi (fun i => try_except (k i) h)
  end.

(** *** Reading a tree as a distribution *)

(** The chance that [random() < p]: [random()] is uniform on [[0, 1)]. *)
Definition clamp01 (p : Q) : Q :=
  if Qle_bool p 0 then 0%Q else if Qle_bool 1 p then 1%Q else p.

Definition scale {A} (w : Q) (d : list (A * Q)) : list (A * Q) :=
  map (fun x => (x.1, (w * x.2)%Q)) d.

(** The outcomes of a computation with their weights, in the order of the
    draws ([True] before [False], smaller integers first). *)
Fixpoint dist {A} (m : Rand A) : list (result A * Q) :=
  match m with
  | Ret a => [(Ok a, 1%Q)]
  | Raise e => [(Err e, 1%Q)]
  | RandomLt p k =>
      scale (clamp01 p) (dist (k true))
      ++ scale (1 - clamp01 p)%Q (dist (k false))
  | Randrange lo hi k =>
      flat_map (fun i => scale (1 / inject_Z (hi - lo))%Q (dist (k i)))
               (range lo hi)
  end.

(** Two distributions with the same outcomes in the same order and equal
    weights. *)
Definition dist_equiv {A} (d1 d2 : list (A * Q)) : Prop :=
  Forall2 (fun x y => x.1 = y.1 /\ (x.2 == y.2)%Q) d1 d2.

(** *** Quantifying over the draws *)

(** [always P m]: whatever is drawn, [m] raises no exception and its value
    satisfies [P]. *)
Fixpoint always {A} (P : A -> Prop) (m : Rand A) : Prop :=
  match m with
  | Ret a => P a
  | Raise _ => False
  | RandomLt _ k => forall b, always P (k b)
  | Randrange lo hi k => lo < hi /\ forall i, lo <= i < hi -> always P (k i)
  end.

(** *** Replaying a script of draws *)

Inductive draw : Type :=
| DrawRandom (r : Q)
| DrawRange (i : Z).

(** [run m s] is the result of [m] when the calls to the random source
    return the draws of [s] in order, with the draws that were not used;
    [None] when the script is too short or does not fit the calls. *)
Fixpoint run {A} (m : Rand A) (s : list draw) : option (result A * list draw) :=
  match m with
  | Ret a => Some (Ok a, s)
  | Raise e => Some (Err e, s)
  | RandomLt p k =>
      match s with
      | DrawRandom r :: s' =>
          if Qle_bool 0 r && negb (Qle_bool 1 r)
          then run (k (negb (Qle_bool p r))) s'
          else None
      | _ => None
      end
  | Randrange lo hi k =>
      match s with
      | DrawRange i :: s' =>
          if (lo <=? i) && (i <? hi) then run (k i) s' else None
      | _ => None
      end
  end.

(** ** [random] *)

(** [probability(p)]: [True if random() < p else False] *)
Definition probability (p : Q) : Rand bool := RandomLt p Ret.

(** [randrange(lo, hi)] raises [ValueError] on an empty range. *)
Definition randrange (lo hi : Z) : Rand Z :=
  if lo <? hi then Randrange lo hi Ret else Raise ValueError.

(** ** [partialSort] *)

Definition partialSort (numList : list pixel) : Rand (list pixel) :=
  let ls := numList in
  a ← randrange 0 (len ls - 1);
  b ← randrange (a + 1) (len ls);
  c ← probability (5 # 10);
  if (c : bool) then
    d ← probability (95 # 100);
    if (d : bool) then
      Ret (slice ls 0 a ++ sorted (slice ls a b) ++ slice_from ls b)
    else
      Ret (sorted (slice ls 0 b) ++ slice_from ls b)
  else
    d ← probability (95 # 100);
    if (d : bool) then
      Ret (slice ls 0 a ++ reversed (sorted (slice ls a b)) ++ slice_from ls b)
    else
      Ret (slice ls 0 a ++ reversed (sorted (slice_from ls a))).

(** ** Loops *)

(** The state of a [for] loop after one iteration: go on, or [break]. *)
Inductive flow (S : Type) : Type :=
| Continue (s : S)
| Break (s : S).
Arguments Continue {S} s.
Arguments Break {S} s.

(** [for x in xs: body] *)
Fixpoint for_in {S} (xs : list Z) (body : Z -> S -> Rand (flow S)) (s : S)
  : Rand S :=
  match xs with
  | [] => Ret s
  | x :: xs' =>
      r ← body x s;
      match r with
      | Continue s' => for_in xs' body s'
      | Break s' => Ret s'
      end
  end.

(** [while cond: body], cut after [fuel] tests of the condition: [None]
    when the loop (or a loop inside its body) is still running by then. *)
Fixpoint while_ {S} (fuel : nat) (cond : S -> bool)
    (body : S -> Rand (option S)) (s : S) : Rand (option S) :=
  match fuel with
  | O => Ret None
  | Datatypes.S fuel' =>
      if cond s then
        r ← body s;
        match r with
        | Some s' => while_ fuel' cond body s'
        | None => Ret None
        end
      else Ret (Some s)
  end.

(** [l[i]] for an index that is not negative. *)
Definition index {A} (l : list A) (i : Z) : Rand A :=
  match l !! Z.to_nat i with
  | Some a => Ret a
  | None => Raise IndexError
  end.

(** [a / b] on integers (true division). *)
Definition truediv (a b : Z) : Rand Q :=
  if b =? 0 then Raise ZeroDivisionError else Ret (inject_Z a / inject_Z b)%Q.

(** [x ** k] for a float [x] and an integer [k]. *)
Definition fpow (x : Q) (k : Z) : Rand Q :=
  if Qeq_bool x 0 && (k <? 0) then Raise ZeroDivisionError else Ret (x ^ k)%Q.

(** ** The image buffer *)

(** Modelled from the spec: the Image Buffer is the Pillow library's image
    object, which is not part of the repository.  It has a width, a height
    and one colour per coordinate; [getpixel] and [putpixel] address the
    pixel [(x, y)] with [0 <= x < width] and [0 <= y < height] and raise
    [IndexError] elsewhere ([None] below).  This is how Pillow treats the
    coordinates that are not negative, the only ones that the program
    passes for [blocks >= 1]; a negative coordinate, which Pillow counts
    from the far edge, is not modelled. *)
Record canvas : Type := Canvas {
  width : Z;
  height : Z;
  pixels : Z -> Z -> pixel
}.

Definition inside (im : canvas) (xy : Z * Z) : bool :=
  (0 <=? xy.1) && (xy.1 <? width im) && (0 <=? xy.2) && (xy.2 <? height im).

Definition getpixel (im : canvas) (xy : Z * Z) : option pixel :=
  if inside im xy then Some (pixels im xy.1 xy.2) else None.

Definition putpixel (im : canvas) (xy : Z * Z) (value : pixel) : option canvas :=
  if inside im xy then
    Some {| width := width im;
            height := height im;
            pixels := fun x y =>
              if (x =? xy.1) && (y =? xy.2) then value else pixels im x y |}
  else None.

Definition black : pixel := (0, 0, 0).

(** Modelled from the spec: [ImageOps.expand(image, border, fill=0)] pads
    the canvas with a solid black border of the given width on all sides.
    This is the call for [border >= 0], as [glitch] makes it for
    [blocks >= 1]; with a negative border Pillow refuses a picture of a
    negative size, which is not modelled. *)
Definition expand (im : canvas) (border : Z) : canvas :=
  {| width := width im + 2 * border;
     height := height im + 2 * border;
     pixels := fun x y =>
       match getpixel im (x - border, y - border) with
       | Some px => px
       | None => black
       end |}.

(** Modelled from the spec: [Image.crop(box)] keeps the rectangle
    [(left, top, right, bottom)]. *)
Definition crop (im : canvas) (box : Z * Z * Z * Z) : canvas :=
  let '(left_, top_, right_, bottom_) := box in
  {| width := right_ - left_;
     height := bottom_ - top_;
     pixels := fun x y =>
       match getpixel im (x + left_, y + top_) with
       | Some px => px
       | None => black
       end |}.

(** ** Parameters of a run (the module's global variables) *)

Record globals : Type := Globals {
  IMAGE_WIDTH : Z;
  IMAGE_HEIGHT : Z;
  BLOCKS : Z;
  DITHER : bool;
  INTENSITY : Z;
  ROTATION : Z;
  FUZZY_EDGES : bool;
  INTERPOLATION : Z
}.

(** The failsafe of the start-up code:
    [INTENSITY if BLOCKS + INTENSITY >= 3 else 3 - BLOCKS]. *)
Definition clampIntensity (blocks intensity : Z) : Z :=
  if blocks + intensity >=? 3 then intensity else 3 - blocks.

(** ** [pixSort] *)

(** Lines 226-232: the pixels of line [y] between [startW] and [endW],
    up to the first coordinate outside of the picture. *)
Definition readLine (image : canvas) (y startW endW : Z) : Rand (list pixel) :=
  for_in (range startW endW)
    (fun x line =>
       match getpixel image (y, x) with
       | Some px => Ret (Continue (line ++ [px]))
       | None => Ret (Break line)
       end)
    [].

(** Lines 236-239: [try: line = partialSort(line) except ValueError: pass] *)
Definition sortLine (line : list pixel) : Rand (list pixel) :=
  try_except (partialSort line)
    (fun e => match e with
              | ValueError => Ret line
              | _ => Raise e
              end).

(** Lines 243-249: the loop that takes channel [colour] back from
    [originalLine]. *)
Definition restoreChannel (colour : Z) (originalLine line : list pixel)
  : Rand (list pixel) :=
  for_in (range 0 (len line))
    (fun px line =>
       r ← (if colour =? 0 then o ← index originalLine px; Ret (red o)
            else l ← index line px; Ret (red l));
       g ← (if colour =? 1 then o ← index originalLine px; Ret (green o)
            else l ← index line px; Ret (green l));
       b ← (if colour =? 2 then o ← index originalLine px; Ret (blue o)
            else l ← index line px; Ret (blue l));
       Ret (Continue (<[Z.to_nat px := (r, g, b)]> line)))
    line.

(** Lines 241-249: the channel restore, taken with probability [p * 0.75]. *)
Definition restoreLine (p : Q) (originalLine line : list pixel)
  : Rand (list pixel) :=
  c ← probability (p * (75 # 100));
  if (c : bool) then
    colour ← randrange 0 3;
    restoreChannel colour originalLine line
  else Ret line.

(** Lines 253-255: [randrange(1, 3) if probability(0.1) and DITHER else 1] *)
Definition rowOffset (g : globals) : Rand Z :=
  c ← probability (1 # 10);
  if (c : bool) && DITHER g then randrange 1 3 else Ret 1.

(** Lines 251-259: the loop that writes the line into the picture. *)
Definition writeBack (g : globals) (image : canvas) (y startW : Z)
    (line : list pixel) : Rand canvas :=
  for_in (range 0 (len line))
    (fun x image =>
       off ← rowOffset g;
       r ← try_except
             (value ← index line x;
              match putpixel image (y + off, startW + x) value with
              | Some image' => Ret (Continue image')
              | None => Raise IndexError
              end)
             (fun e => match e with
                       | IndexError => Ret (Break image)
                       | _ => Raise e
                       end);
       Ret r)
    image.

Definition pixSort (g : globals) (image : canvas)
    (startW startH endW endH : Z) (p : Q) : Rand canvas :=
  for_in (range startH endH)
    (fun y image =>
       c ← probability p;
       if (c : bool) then
         line ← readLine image y startW endW;
         let originalLine := line in
         line ← sortLine line;
         line ← restoreLine p originalLine line;
         image ← writeBack g image y startW line;
         Ret (Continue image)
       else Ret (Continue image))
    image.

(** ** [glitch] *)

(** Lines 311-313: the probability [p] handed to [pixSort] for one block,
    [1 - (blocks**2 / (blocks + 1)**2) ** randrange(blocks - 4 + INTENSITY,
    blocks - 1 + INTENSITY)]. *)
Definition blockProbability (g : globals) (blocks : Z) : Rand Q :=
  ratio ← truediv (blocks ^ 2) ((blocks + 1) ^ 2);
  k ← randrange (blocks - 4 + INTENSITY g) (blocks - 1 + INTENSITY g);
  x ← fpow ratio k;
  Ret (1 - x)%Q.

Section Tiling.
Context {St : Type}.

(** What is done with one block: the call of [pixSort] in [glitch]. *)
Variable visit : St -> Z -> Z -> Z -> Z -> Q -> Rand St.

(** Lines 292-315: the two nested [while] loops. *)
Definition tiling (fuel : nat) (g : globals) (blocks wBlock hBlock : Z)
    (image : St) : Rand (option St) :=
  let currentHeight := 0 in
  r ← while_ fuel
        (fun '((image, currentHeight) : St * Z) =>
           Qle_bool
             (inject_Z currentHeight + inject_Z (hBlock * 2) / 3)
             (inject_Z ((if IMAGE_HEIGHT g >=? IMAGE_WIDTH g
                         then IMAGE_HEIGHT g else IMAGE_WIDTH g) * 2)))
        (fun '((image, currentHeight) : St * Z) =>
           let currentWidth := 0 in
           r ← while_ fuel
                 (fun '((image, currentWidth) : St * Z) =>
                    Qle_bool
                      (inject_Z currentWidth + inject_Z (wBlock * 2) / 3)
                      (inject_Z ((if IMAGE_WIDTH g >=? IMAGE_HEIGHT g
                                  then IMAGE_WIDTH g
                                  else IMAGE_HEIGHT g) * 2)))
                 (fun '((image, currentWidth) : St * Z) =>
                    p ← blockProbability g blocks;
                    image ← (visit image
                              currentHeight
                              currentWidth
                              (currentHeight + hBlock)
                              (currentWidth + wBlock)
                              p : Rand St);
                    Ret (Some (image,
                                currentWidth
                                + (if blocks >? 1
                                   then int (inject_Z (wBlock * 2) / 3)
                                   else wBlock))))
                 (image, currentWidth);
           match r with
           | Some (image, _) =>
               Ret (Some (image,
                           currentHeight
                           + (if blocks >? 1
                              then int (inject_Z (hBlock * 2) / 3)
                              else hBlock)))
           | None => Ret None
           end)
        (image, currentHeight);
  match r with
  | Some (image, _) => Ret (Some image)
  | None => Ret None
  end.
End Tiling.

(** A block as [pixSort] receives it:
    [(currentHeight, currentWidth, currentHeight + hBlock,
      currentWidth + wBlock, p)]. *)
Definition block : Type := Z * Z * Z * Z * Q.

(** The blocks of a pass in the order of the calls of [pixSort]. *)
Definition blockTrace (fuel : nat) (g : globals) (blocks wBlock hBlock : Z)
  : Rand (option (list block)) :=
  tiling (fun log startW startH endW endH p =>
            Ret (log ++ [(startW, startH, endW, endH, p)]))
         fuel g blocks wBlock hBlock [].

(** [pixSort] reads line [y] of a block as the pixels [(y, x)]: a block
    holds the pixel [(x, y)] of the picture when [y] is between its first
    and third component and [x] between its second and fourth. *)
Definition in_block (x y : Z) (b : block) : bool :=
  let '(startW, startH, endW, endH, _) := b in
  (startH <=? x) && (x <? endH) && (startW <=? y) && (y <? endW).

Section Glitch.
(** [Image.rotate(angle, resample, expand=True)] of the Pillow library. *)
Variable rotate : canvas -> Z -> Z -> canvas.

(** [abs(sin(rad(angle)))] and [abs(cos(rad(angle)))]. *)
Variables abs_sin abs_cos : Z -> Q.

Definition glitch (fuel : nat) (g : globals) (image : canvas)
    (blocks rotation : Z) : Rand (option canvas) :=
  w ← truediv (IMAGE_WIDTH g) blocks;
  h ← truediv (IMAGE_HEIGHT g) blocks;
  let wBlock := int w in
  let hBlock := int h in
  let image :=
    if negb (rotation =? 0)
    then rotate image rotation (INTERPOLATION g)
    else image in
  let image :=
    if (rotation =? 0) || (Z.abs rotation =? 90)
    then expand image (if wBlock >=? hBlock then wBlock else hBlock)
    else image in
  r ← tiling (pixSort g) fuel g blocks wBlock hBlock image;
  match r with
  | Some image =>
      Ret (Some (if negb (rotation =? 0)
                  then rotate image (- rotation) (INTERPOLATION g)
                  else image))
  | None => Ret None
  end.

(** Lines 343-363 of [main]: the box that is kept of the glitched
    picture. *)
Definition cropBox (g : globals) (im : canvas) : Z * Z * Z * Z :=
  let trig :=
    if Qle_bool (abs_sin (ROTATION g)) (abs_cos (ROTATION g))
    then abs_cos (ROTATION g)
    else abs_sin (ROTATION g) in
  let fuzz (dimension : Z) : Q :=
    if negb (FUZZY_EDGES g) then 0%Q
    else (inject_Z dimension / inject_Z (BLOCKS g) * trig)%Q in
  let left_ :=
    int ((inject_Z (width im) - inject_Z (IMAGE_WIDTH g)
          - fuzz (IMAGE_WIDTH g)) / 2) in
  let top_ :=
    int ((inject_Z (height im) - inject_Z (IMAGE_HEIGHT g)
          - fuzz (IMAGE_HEIGHT g)) / 2) in
  let right_ :=
    int (inject_Z (IMAGE_WIDTH g)
         + (inject_Z (width im) - inject_Z (IMAGE_WIDTH g)
            + fuzz (IMAGE_WIDTH g)) / 2) in
  let bottom_ :=
    int (inject_Z (IMAGE_HEIGHT g)
         + (inject_Z (height im) - inject_Z (IMAGE_HEIGHT g)
            + fuzz (IMAGE_HEIGHT g)) / 2) in
  (left_, top_, right_, bottom_).

End Glitch.

(** ** [main]: the files that are saved *)

(** [s.split('.')[0]]: the text before the first dot. *)
Fixpoint before_dot (s : string) : string :=
  match s with
  | EmptyString => EmptyString
  | String c s' =>
      if Ascii.eqb c "."%char then EmptyString else String c (before_dot s')
  end.

(** [str(n)] *)
Definition str (n : Z) : string := NilEmpty.string_of_int (Z.to_int n).

(** Lines 369-375 of [main]: the name of the file that is saved. *)
Definition outputName (FILENAME : string) (iteration : Z) (JPEG : option Z)
  : string :=
  match JPEG with
  | None => (before_dot FILENAME ++ "_out" ++ str iteration ++ ".png")%string
  | Some _ => (before_dot FILENAME ++ "_out" ++ str iteration ++ ".jpg")%string
  end.

(** ** Notions used in the statements *)

(** The order of pixels: lexicographic on [(R, G, B)]. *)
Definition pixel_le (x y : pixel) : Prop :=
  red x < red y \/
  (red x = red y /\
   (green x < green y \/ (green x = green y /\ blue x <= blue y))).

(** The positions [lo], ..., [hi - 1] of a list. *)
Definition segment {A} (lo hi : nat) (l : list A) : list A :=
  take (hi - lo) (drop lo l).

(** [out] is [ls] with the range [[lo, hi)] replaced by its ascending sort,
    or by the reverse of its ascending sort: nothing moves outside of the
    range, and the range holds the same pixels in order. *)
Definition replaced (lo hi : Z) (descending : bool) (ls out : list pixel)
  : Prop :=
  length out = length ls /\
  (forall i : nat, Z.of_nat i < lo \/ hi <= Z.of_nat i -> out !! i = ls !! i) /\
  Permutation (segment (Z.to_nat lo) (Z.to_nat hi) out)
              (segment (Z.to_nat lo) (Z.to_nat hi) ls) /\
  StronglySorted (if descending then flip pixel_le else pixel_le)
                 (segment (Z.to_nat lo) (Z.to_nat hi) out).

(** The four cases of [partialSort]. *)
Inductive replacement : Type :=
| AscMiddle
| AscBeginning
| DescMiddle
| DescEnd.

(** The distribution that the specification gives for a list of length
    [N]: [a] uniform in [[0, N-2]], [b] uniform in [[a+1, N-1]], then the
    four cases with chances [0.5 * 0.95], [0.5 * 0.05], [0.5 * 0.95] and
    [0.5 * 0.05]. *)
Definition partialSort_dist (N : Z) (out : Z -> Z -> replacement -> list pixel)
  : list (result (list pixel) * Q) :=
  flat_map (fun a =>
    flat_map (fun b =>
      let w := ((1 / inject_Z (N - 1)) * (1 / inject_Z (N - 1 - a)))%Q in
      [ (Ok (out a b AscMiddle), (w * ((1 # 2) * (95 # 100)))%Q);
        (Ok (out a b AscBeginning), (w * ((1 # 2) * (5 # 100)))%Q);
        (Ok (out a b DescMiddle), (w * ((1 # 2) * (95 # 100)))%Q);
        (Ok (out a b DescEnd), (w * ((1 # 2) * (5 # 100)))%Q) ])
      (range (a + 1) N))
    (range 0 (N - 1)).

(** The channel of a pixel: [0] is red, [1] is green, [2] is blue. *)
Definition channel (c : Z) (px : pixel) : Z :=
  if c =? 0 then red px else if c =? 1 then green px else blue px.

(** [out] has, at every position, channel [c] of [originalLine] and the
    two other channels of [line]. *)
Definition channel_restored (c : Z) (originalLine line out : list pixel)
  : Prop :=
  length out = length line /\
  forall (i : nat) (o s : pixel),
    originalLine !! i = Some o -> line !! i = Some s ->
    exists r, out !! i = Some r /\
      channel c r = channel c o /\
      forall c', 0 <= c' < 3 -> c' <> c -> channel c' r = channel c' s.

(** The rows that a dithered or plain write can be moved by. *)
Definition offset_allowed (g : globals) (off : Z) : Prop :=
  off = 1 \/ (DITHER g = true /\ off = 2).

(** What [writeBack] leaves: the first [length offs] pixels of the line
    were written, pixel [i] at [(y + off_i, startW + i)]; nothing else
    changed; the loop went through the whole line unless the next write
    fell outside of the picture. *)
Definition written (g : globals) (image : canvas) (y startW : Z)
    (line : list pixel) (offs : list Z) (image' : canvas) : Prop :=
  (length offs <= length line)%nat /\
  width image' = width image /\
  height image' = height image /\
  (forall (i : nat) off, offs !! i = Some off ->
     offset_allowed g off /\
     inside image (y + off, startW + Z.of_nat i) = true /\
     line !! i = Some (pixels image' (y + off) (startW + Z.of_nat i))) /\
  (forall cx cy,
     (forall (i : nat) off, offs !! i = Some off ->
        ~ (cx = y + off /\ cy = startW + Z.of_nat i)) ->
     pixels image' cx cy = pixels image cx cy) /\
  ((length offs < length line)%nat ->
   exists off, offset_allowed g off /\
     inside image (y + off, startW + Z.of_nat (length offs)) = false).

(** The blocks of [log] cover every pixel of the picture [im]. *)
Definition covers_canvas (im : canvas) (log : list block) : Prop :=
  forall x y, inside im (x, y) = true ->
    Exists (fun b => in_block x y b = true) log.

(** The size of a block and the step between two blocks along one axis,
    as [glitch] computes them from the size of the picture. *)
Definition blockSize (dimension blocks : Z) : Z :=
  int (inject_Z dimension / inject_Z blocks).

Definition stride (blocks blockDimension : Z) : Z :=
  if blocks >? 1 then int (inject_Z (blockDimension * 2) / 3)
  else blockDimension.

(** The border that [glitch] adds for the angles 0 and 90. *)
Definition border (g : globals) (blocks : Z) : Z :=
  let wBlock := blockSize (IMAGE_WIDTH g) blocks in
  let hBlock := blockSize (IMAGE_HEIGHT g) blocks in
  if wBlock >=? hBlock then wBlock else hBlock.

(** Pictures and parameters for the examples. *)
Definition white : pixel := (255, 255, 255).

Definition blank (w h : Z) : canvas :=
  {| width := w; height := h; pixels := fun _ _ => black |}.

Definition plain (w h blocks : Z) (dither : bool) : globals :=
  {| IMAGE_WIDTH := w;
     IMAGE_HEIGHT := h;
     BLOCKS := blocks;
     DITHER := dither;
     INTENSITY := clampIntensity blocks 0;
     ROTATION := 0;
     FUZZY_EDGES := false;
     INTERPOLATION := 0 |}.

(** The list that [partialSort] returns in each of its four cases, for the
    draws [a] and [b]. *)
Definition partialSort_out (ls : list pixel) (a b : Z) (r : replacement)
  : list pixel :=
  match r with
  | AscMiddle => slice ls 0 a ++ sorted (slice ls a b) ++ slice_from ls b
  | AscBeginning => sorted (slice ls 0 b) ++ slice_from ls b
  | DescMiddle =>
      slice ls 0 a ++ reversed (sorted (slice ls a b)) ++ slice_from ls b
  | DescEnd => slice ls 0 a ++ reversed (sorted (slice_from ls a))
  end.

(** The pixel that the loop of [restoreChannel] stores at a position that
    holds [o] in the original line and [s] in the sorted line. *)
Definition restore1 (c : Z) (o s : pixel) : pixel :=
  (if c =? 0 then red o else red s,
   if c =? 1 then green o else green s,
   if c =? 2 then blue o else blue s).

(** The state of [writeBack] after the first [n] pixels. *)
Definition written_upto (g : globals) (image : canvas) (y startW : Z)
    (line : list pixel) (n : nat) (image' : canvas) : Prop :=
  exists offs, length offs = n /\ (n <= length line)%nat /\
  width image' = width image /\
  height image' = height image /\
  (forall (i : nat) off, offs !! i = Some off ->
     offset_allowed g off /\
     inside image (y + off, startW + Z.of_nat i) = true /\
     line !! i = Some (pixels image' (y + off) (startW + Z.of_nat i))) /\
  (forall cx cy,
     (forall (i : nat) off, offs !! i = Some off ->
        ~ (cx = y + off /\ cy = startW + Z.of_nat i)) ->
     pixels image' cx cy = pixels image cx cy).

(** [blocks**2 / (blocks + 1)**2] *)
Definition blockRatio (blocks : Z) : Q :=
  (inject_Z (blocks ^ 2) / inject_Z ((blocks + 1) ^ 2))%Q.

(** The probabilities that a block can get. *)
Definition block_p (g : globals) (blocks : Z) (p : Q) : Prop :=
  exists k, blocks - 4 + INTENSITY g <= k < blocks - 1 + INTENSITY g /\
            p = (1 - blockRatio blocks ^ k)%Q.

(** The picture that [glitch] hands to its loops: rotated, and padded for
    the angles 0 and 90. *)
Definition glitchInput (rotate : canvas -> Z -> Z -> canvas) (g : globals)
    (image : canvas) (blocks rotation : Z) : canvas :=
  let image :=
    if negb (rotation =? 0)
    then rotate image rotation (INTERPOLATION g)
    else image in
  if (rotation =? 0) || (Z.abs rotation =? 90)
  then expand image (border g blocks)
  else image.

(** [log] has a block that holds the pixel [(x, y)]. *)
Definition covered (x y : Z) (log : list block) : Prop :=
  Exists (fun b => in_block x y b = true) log.

(** Where [readLine] stops: at [endW], or before at the first pixel that
    is not in the picture. *)
Definition readStop (image : canvas) (y startW endW : Z) : Z :=
  if (0 <=? y) && (y <? width image) && (0 <=? startW)
  then Z.min endW (height image)
  else startW.

(** The part of the picture that a call of [pixSort] can write to. *)
Definition in_reach (g : globals) (startW startH endW endH cx cy : Z) : Prop :=
  startH + 1 <= cx <= endH + (if DITHER g then 1 else 0) /\
  startW <= cy < endW.

(** A value that [random()] can return. *)
Definition unit_draw (r : Q) : Prop := (0 <= r)%Q /\ (r < 1)%Q.

(** The first block starts before the second in the order of the loops:
    on an earlier row of blocks, or earlier on the same row. *)
Definition block_before (b1 b2 : block) : Prop :=
  let '(startW1, startH1, _, _, _) := b1 in
  let '(startW2, startH2, _, _, _) := b2 in
  startW1 < startW2 \/ (startW1 = startW2 /\ startH1 < startH2).

(** A block of the size [hBlock] x [wBlock], that starts on a multiple of
    the steps, inside of the bound of the loops. *)
Definition block_shape (g : globals) (blocks wBlock hBlock : Z) (b : block)
  : Prop :=
  let '(startW, startH, endW, endH, _) := b in
  let M := Z.max (IMAGE_WIDTH g) (IMAGE_HEIGHT g) in
  endW = startW + hBlock /\ endH = startH + wBlock /\
  0 <= startW /\ 0 <= startH /\
  (stride blocks hBlock | startW) /\ (stride blocks wBlock | startH) /\
  3 * startW + 2 * hBlock <= 6 * M /\ 3 * startH + 2 * wBlock <= 6 * M.

(** The row offset of one write with its chance, in the order of the
    draws: with dithering, 10% for a draw from {1, 2} and 90% for 1;
    without, the draw of [random()] is made and the offset is 1. *)
Definition offset_law (g : globals) : list (Z * Q) :=
  if DITHER g
  then [ (1, ((1 # 10) * (1 # 2))%Q);
         (2, ((1 # 10) * (1 # 2))%Q);
         (1, (1 - (1 # 10))%Q) ]
  else [ (1, (1 # 10)%Q); (1, (1 - (1 # 10))%Q) ].

(** The distribution of the write-back as the amended claim words it: the
    pixels are taken in order, pixel [x] of the line goes to
    [(y + off, startW + x)] for an offset drawn on its own by
    [offset_law], and the first write outside of the picture ends the
    write-back. *)
Fixpoint writeBack_law (g : globals) (image : canvas) (y startW x : Z)
    (line : list pixel) : list (result canvas * Q) :=
  match line with
  | [] => [(Ok image, 1%Q)]
  | value :: rest =>
      flat_map
        (fun ow : Z * Q =>
           match putpixel image (y + ow.1, startW + x) value with
           | Some image' =>
               scale ow.2 (writeBack_law g image' y startW (x + 1) rest)
           | None => scale ow.2 [(Ok image, 1%Q)]
           end)
        (offset_law g)
  end.

(** The last value that the variable of a loop of [glitch] takes in the
    body of the loop: the greatest multiple [c] of the step with
    [c + blockDimension * 2/3 <= 2 * M]. *)
Definition lastStart (blocks blockDimension M : Z) : Z :=
  let s := stride blocks blockDimension in
  s * ((6 * M - 2 * blockDimension) / (3 * s)).

(** Where the last block of a row or of a column of blocks ends. *)
Definition reach (blocks blockDimension M : Z) : Z :=
  lastStart blocks blockDimension M + blockDimension.

(** ** The random source: rules *)

Lemma always_mono {A} (P Q : A -> Prop) (m : Rand A) :
  (forall a, P a -> Q a) -> always P m -> always Q m.
Proof.
  intros HPQ. induction m as [a|e|p k IH|lo hi k IH]; simpl; auto.
  intros [Hlt Hk]. split; auto.
Qed.

Lemma always_bind {A B} (P : B -> Prop) (m : Rand A) (f : A -> Rand B) :
  always (fun a => always P (f a)) m -> always P (rbind m f).
Proof.
  induction m as [a|e|p k IH|lo hi k IH]; simpl; auto.
  intros [Hlt Hk]. split; auto.
Qed.

Lemma always_and {A} (P Q : A -> Prop) (m : Rand A) :
  always P m -> always Q m -> always (fun a => P a /\ Q a) m.
Proof.
  induction m as [a|e|p k IH|lo hi k IH]; simpl; auto.
  intros [Hlt Hk] [_ Hk']. split; auto.
Qed.

(** Every computation has at least one outcome. *)
Lemma always_inhabited {A} (m : Rand A) : ~ always (fun _ => False) m.
Proof.
  induction m as [a|e|p k IH|lo hi k IH]; simpl; auto.
  - intros H. exact (IH true (H true)).
  - intros [Hlt Hk]. apply (IH lo). apply Hk. lia.
Qed.

(** What holds always holds on every script. *)
Lemma always_run {A} (P : A -> Prop) (m : Rand A) s r s' :
  always P m -> run m s = Some (r, s') -> exists a, r = Ok a /\ P a.
Proof.
  revert s. induction m as [a|e|p k IH|lo hi k IH]; simpl; intros s Hal Hrun.
  - inversion Hrun; subst. eauto.
  - destruct Hal.
  - destruct s as [|[r0|i] s0]; try discriminate.
    destruct (Qle_bool 0 r0 && negb (Qle_bool 1 r0)); try discriminate.
    eapply IH; eauto.
  - destruct s as [|[r0|i] s0]; try discriminate.
    destruct ((lo <=? i) && (i <? hi)) eqn:E; try discriminate.
    destruct Hal as [_ Hk]. eapply (IH i); eauto. apply Hk. lia.
Qed.

Lemma always_try_except {A} (P : A -> Prop) (m : Rand A) h :
  always P m -> always P (try_except m h).
Proof.
  induction m as [a|e|p k IH|lo hi k IH]; simpl; auto.
  - intros [].
  - intros [Hlt Hk]. split; auto.
Qed.

Lemma always_randrange (P : Z -> Prop) lo hi :
  lo < hi -> (forall i, lo <= i < hi -> P i) -> always P (randrange lo hi).
Proof.
  intros Hlt HP. unfold randrange.
  destruct (lo <? hi) eqn:E; [|lia]. simpl. auto.
Qed.

Lemma always_probability (P : bool -> Prop) p :
  P true -> P false -> always P (probability p).
Proof. intros Ht Hf [|]; simpl; auto. Qed.

(** The rule of [for] loops: [I done s] holds when the elements [done]
    have been gone through and the state is [s]. *)
Lemma always_for_in {S} (I : list Z -> S -> Prop) (Q : S -> Prop) xs body s :
  (forall done x rest s0, xs = done ++ x :: rest -> I done s0 ->
     always (fun r => match r with
                      | Continue s' => I (done ++ [x]) s'
                      | Break s' => Q s'
                      end) (body x s0)) ->
  (forall s0, I xs s0 -> Q s0) ->
  I [] s -> always Q (for_in xs body s).
Proof.
  intros Hbody Hend.
  assert (G : forall rest done s0, xs = done ++ rest -> I done s0 ->
                always Q (for_in rest body s0)).
  { induction rest as [|x rest IH]; intros done s0 Hxs HI; simpl.
    - rewrite app_nil_r in Hxs. subst. auto.
    - apply always_bind. eapply always_mono; [|eapply Hbody; eauto].
      intros [s'|s'] Hr; simpl; auto.
      apply (IH (done ++ [x])); auto. rewrite <- app_assoc. exact Hxs. }
  intros HI. apply (G xs [] s); auto.
Qed.

(** The rule of [while] loops, for the runs that end. *)
Lemma always_while {S} (I : S -> Prop) fuel cond body (s : S) :
  (forall s0, I s0 -> cond s0 = true ->
     always (fun r => forall s', r = Some s' -> I s') (body s0)) ->
  I s ->
  always (fun r => forall s', r = Some s' -> I s' /\ cond s' = false)
         (while_ fuel cond body s).
Proof.
  intros Hbody. revert s. induction fuel as [|n IH]; intros s HI; simpl.
  - discriminate.
  - destruct (cond s) eqn:E.
    + apply always_bind. eapply always_mono; [|apply Hbody; auto].
      intros [s'|] Hr; simpl; [|discriminate]. apply IH. auto.
    + simpl. intros s' [= <-]. auto.
Qed.

(** The rule of [while] loops with a measure [mu] that decreases: the loop
    ends when it is given more fuel than the measure. *)
Lemma always_while_total {S} (I : S -> Prop) (mu : S -> Z) fuel cond body
    (s : S) :
  (forall s0, I s0 -> cond s0 = true ->
     0 <= mu s0 /\
     always (fun r => exists s', r = Some s' /\ I s' /\ mu s' < mu s0)
            (body s0)) ->
  I s -> Z.max 0 (mu s + 1) < Z.of_nat fuel ->
  always (fun r => exists s', r = Some s' /\ I s' /\ cond s' = false)
         (while_ fuel cond body s).
Proof.
  intros Hbody. revert s. induction fuel as [|n IH]; intros s HI Hfuel; simpl.
  - lia.
  - destruct (cond s) eqn:E.
    + destruct (Hbody s HI E) as [Hmu Hb].
      apply always_bind. eapply always_mono; [|exact Hb].
      intros r (s' & -> & HI' & Hlt). simpl. apply IH; auto. lia.
    + simpl. eauto.
Qed.

(** A [while] loop whose body keeps the condition true never ends. *)
Lemma always_while_diverges {S} (I : S -> Prop) fuel cond body (s : S) :
  (forall s0, I s0 ->
     cond s0 = true /\
     always (fun r => forall s', r = Some s' -> I s') (body s0)) ->
  I s -> always (fun r => r = None) (while_ fuel cond body s).
Proof.
  intros Hbody. revert s. induction fuel as [|n IH]; intros s HI; simpl; auto.
  destruct (Hbody s HI) as [-> Hb].
  apply always_bind. eapply always_mono; [|exact Hb].
  intros [s'|] Hr; simpl; auto.
Qed.

(** ** The builtins: facts *)

Lemma range_In lo hi i : In i (range lo hi) <-> lo <= i < hi.
Proof.
  unfold range. rewrite in_map_iff. split.
  - intros (k & <- & Hk). apply in_seq in Hk. lia.
  - intros Hi. exists (Z.to_nat (i - lo)). split; [lia|].
    apply in_seq. lia.
Qed.

Lemma range_length lo hi : length (range lo hi) = Z.to_nat (hi - lo).
Proof. unfold range. now rewrite length_map, length_seq. Qed.

Lemma range_lookup lo hi (i : nat) :
  (i < Z.to_nat (hi - lo))%nat -> range lo hi !! i = Some (lo + Z.of_nat i).
Proof.
  intros Hi. unfold range. rewrite list_lookup_fmap.
  rewrite lookup_seq_lt by lia. reflexivity.
Qed.

(** The element of a range that comes after a prefix of it. *)
Lemma range_split lo hi done x rest :
  range lo hi = done ++ x :: rest ->
  x = lo + Z.of_nat (length done) /\ (length done < Z.to_nat (hi - lo))%nat.
Proof.
  intros H.
  assert (Hlen : (length done < Z.to_nat (hi - lo))%nat).
  { rewrite <- range_length, H, length_app. simpl. lia. }
  split; [|exact Hlen].
  pose proof (range_lookup lo hi (length done) Hlen) as Hl.
  rewrite H in Hl. rewrite list_lookup_middle in Hl by reflexivity.
  congruence.
Qed.

Lemma range_three lo : range lo (lo + 3) = [lo; lo + 1; lo + 2].
Proof.
  unfold range. replace (lo + 3 - lo) with 3 by lia. simpl.
  f_equal. lia.
Qed.

Lemma slice_in_range {A} (l : list A) lo hi :
  0 <= lo <= hi -> hi <= len l ->
  slice l lo hi = segment (Z.to_nat lo) (Z.to_nat hi) l.
Proof.
  intros H1 H2. unfold slice, segment, slice_bound.
  destruct (lo <? 0) eqn:E1; [lia|]. destruct (hi <? 0) eqn:E2; [lia|].
  rewrite !Z.min_l by lia. f_equal. lia.
Qed.

Lemma slice_from_in_range {A} (l : list A) lo :
  0 <= lo <= len l -> slice_from l lo = drop (Z.to_nat lo) l.
Proof.
  intros H. unfold slice_from, slice_bound.
  destruct (lo <? 0) eqn:E1; [lia|]. now rewrite Z.min_l by lia.
Qed.

Lemma pixel_ltb_true x y : pixel_ltb x y = true -> pixel_le x y.
Proof.
  unfold pixel_ltb, pixel_le.
  destruct (Z.eqb_spec (red x) (red y)); [|lia].
  destruct (Z.eqb_spec (green x) (green y)); lia.
Qed.

Lemma pixel_ltb_false x y : pixel_ltb x y = false -> pixel_le y x.
Proof.
  unfold pixel_ltb, pixel_le.
  destruct (Z.eqb_spec (red x) (red y)); [|lia].
  destruct (Z.eqb_spec (green x) (green y)); lia.
Qed.

Lemma pixel_le_trans x y z : pixel_le x y -> pixel_le y z -> pixel_le x z.
Proof. unfold pixel_le. lia. Qed.

Lemma sorted_insert_perm x l : Permutation (sorted_insert x l) (x :: l).
Proof.
  induction l as [|y l IH]; simpl; [reflexivity|].
  destruct (pixel_ltb y x); [|reflexivity].
  rewrite IH. apply perm_swap.
Qed.

Lemma sorted_perm l : Permutation (sorted l) l.
Proof.
  induction l as [|x l IH]; simpl; [reflexivity|].
  rewrite sorted_insert_perm. now constructor.
Qed.

Lemma sorted_length l : length (sorted l) = length l.
Proof. apply Permutation_length, sorted_perm. Qed.

Lemma sorted_insert_sorted x l :
  StronglySorted pixel_le l -> StronglySorted pixel_le (sorted_insert x l).
Proof.
  induction l as [|y l IH]; simpl; intros Hs.
  - repeat constructor.
  - apply StronglySorted_inv in Hs as [Hs Hy].
    destruct (pixel_ltb y x) eqn:E.
    + constructor; [auto|].
      eapply Permutation_Forall; [symmetry; apply sorted_insert_perm|].
      constructor; [now apply pixel_ltb_true|exact Hy].
    + apply pixel_ltb_false in E.
      constructor; [constructor; auto|].
      constructor; [exact E|].
      eapply Forall_impl; [exact Hy|].
      intros z Hz. simpl in Hz. eapply pixel_le_trans; eauto.
Qed.

Lemma sorted_sorted l : StronglySorted pixel_le (sorted l).
Proof.
  induction l as [|x l IH]; simpl; [constructor|].
  now apply sorted_insert_sorted.
Qed.

Lemma StronglySorted_snoc {A} (R : A -> A -> Prop) l x :
  StronglySorted R l -> Forall (fun y => R y x) l ->
  StronglySorted R (l ++ [x]).
Proof.
  induction l as [|y l IH]; simpl; intros Hs Hall.
  - repeat constructor.
  - apply StronglySorted_inv in Hs as [Hs Hy].
    apply Forall_cons in Hall as [Hyx Hall].
    constructor; [auto|].
    apply Forall_app. split; [exact Hy|]. repeat constructor. exact Hyx.
Qed.

Lemma reversed_sorted {A} (R : A -> A -> Prop) l :
  StronglySorted R l -> StronglySorted (flip R) (reversed l).
Proof.
  unfold reversed. induction l as [|x l IH]; simpl; intros Hs.
  - constructor.
  - apply StronglySorted_inv in Hs as [Hs Hx].
    apply StronglySorted_snoc; [auto|].
    apply Forall_forall. intros y Hy.
    apply list_elem_of_In, in_rev, list_elem_of_In in Hy.
    rewrite Forall_forall in Hx. now apply Hx.
Qed.

Lemma int_inject_Z z : int (inject_Z z) = z.
Proof.
  unfold int. destruct (Qle_bool 0 (inject_Z z)).
  - apply Qfloor_Z.
  - apply Qceiling_Z.
Qed.

Lemma int_proper x y : (x == y)%Q -> int x = int y.
Proof.
  intros H. unfold int.
  assert (E : Qle_bool 0 x = Qle_bool 0 y).
  { destruct (Qle_bool 0 x) eqn:Ex, (Qle_bool 0 y) eqn:Ey; auto.
    - apply Qle_bool_iff in Ex. rewrite H in Ex.
      apply Qle_bool_iff in Ex. congruence.
    - apply Qle_bool_iff in Ey. rewrite <- H in Ey.
      apply Qle_bool_iff in Ey. congruence. }
  rewrite E. destruct (Qle_bool 0 y).
  - now apply Qfloor_comp.
  - now apply Qceiling_comp.
Qed.

(** [int(a / b)] is the quotient of the integers, for a positive [b] and
    an [a] that is not negative. *)
Lemma int_div a b : 0 <= a -> 0 < b -> int (inject_Z a / inject_Z b) = a / b.
Proof.
  intros Ha Hb. unfold int.
  assert (Hq : (0 <= inject_Z a / inject_Z b)%Q).
  { apply Qle_shift_div_l.
    - replace 0%Q with (inject_Z 0) by reflexivity. now rewrite <- Zlt_Qlt.
    - rewrite Qmult_0_l. replace 0%Q with (inject_Z 0) by reflexivity.
      now rewrite <- Zle_Qle. }
  apply Qle_bool_iff in Hq. rewrite Hq.
  destruct b as [|p|p]; try lia.
  unfold Qfloor, Qdiv, Qinv, Qmult, inject_Z. simpl.
  now rewrite Z.mul_1_r.
Qed.

(** ** Distributions: facts *)

Lemma dist_equiv_flat_map {A B} (f g : A -> list (B * Q)) l :
  (forall x, In x l -> dist_equiv (f x) (g x)) ->
  dist_equiv (flat_map f l) (flat_map g l).
Proof.
  induction l as [|x l IH]; simpl; intros H.
  - constructor.
  - apply Forall2_app; [apply H; auto|apply IH; auto].
Qed.

Lemma scale_flat_map {A B} w (f : A -> list (B * Q)) l :
  scale w (flat_map f l) = flat_map (fun x => scale w (f x)) l.
Proof.
  induction l as [|x l IH]; simpl; [reflexivity|].
  unfold scale in *. now rewrite map_app, IH.
Qed.

Lemma replaced_generic (ls : list pixel) (lo hi : Z) (desc : bool) f :
  0 <= lo <= hi -> hi <= len ls ->
  (forall l, Permutation (f l) l) ->
  (forall l, StronglySorted (if desc then flip pixel_le else pixel_le) (f l)) ->
  replaced lo hi desc ls
    (take (Z.to_nat lo) ls ++ f (segment (Z.to_nat lo) (Z.to_nat hi) ls)
       ++ drop (Z.to_nat hi) ls).
Proof.
  intros H1 H2 Hperm Hsort. unfold len in H2.
  set (seg := segment (Z.to_nat lo) (Z.to_nat hi) ls).
  assert (Hseg : length (f seg) = (Z.to_nat hi - Z.to_nat lo)%nat).
  { rewrite (Permutation_length (Hperm seg)). unfold seg, segment.
    rewrite length_take, length_drop. lia. }
  assert (Htake : length (take (Z.to_nat lo) ls) = Z.to_nat lo).
  { rewrite length_take. lia. }
  repeat split.
  - rewrite !length_app, Hseg, Htake, length_drop. lia.
  - intros i [Hi|Hi].
    + rewrite lookup_app_l by lia. apply lookup_take_lt. lia.
    + rewrite lookup_app_r by lia. rewrite lookup_app_r by lia.
      rewrite lookup_drop. f_equal. lia.
  - unfold segment at 1. rewrite drop_app_length' by lia.
    rewrite take_app_length' by lia. apply Hperm.
  - unfold segment at 1. rewrite drop_app_length' by lia.
    rewrite take_app_length' by lia. apply Hsort.
Qed.


Lemma partialSort_dist_equiv (ls : list pixel) :
  2 <= len ls ->
  dist_equiv (dist (partialSort ls)) (partialSort_dist (len ls) (partialSort_out ls)).
Proof.
  intros HN. unfold partialSort, partialSort_dist, randrange.
  destruct (0 <? len ls - 1) eqn:E0; [|lia]. simpl.
  apply dist_equiv_flat_map. intros a Ha. apply range_In in Ha.
  destruct (a + 1 <? len ls) eqn:E1; [|lia]. simpl.
  rewrite scale_flat_map.
  apply dist_equiv_flat_map. intros b Hb. apply range_In in Hb.
  replace (len ls - 1 - 0) with (len ls - 1) by lia.
  replace (len ls - (a + 1)) with (len ls - 1 - a) by lia.
  unfold probability. simpl. 
  change (clamp01 (5 # 10)) with (5 # 10)%Q.
  change (clamp01 (95 # 100)) with (95 # 100)%Q.
  repeat (constructor; [split; [reflexivity|simpl; ring]|]).
  constructor.
Qed.

Lemma partialSort_out_replaced (ls : list pixel) a b :
  0 <= a <= len ls - 2 -> a + 1 <= b <= len ls - 1 ->
  replaced a b false ls (partialSort_out ls a b AscMiddle) /\
  replaced 0 b false ls (partialSort_out ls a b AscBeginning) /\
  replaced a b true ls (partialSort_out ls a b DescMiddle) /\
  replaced a (len ls) true ls (partialSort_out ls a b DescEnd).
Proof.
  intros Ha Hb. unfold partialSort_out.
  rewrite !slice_in_range, !slice_from_in_range by lia.
  assert (E0 : forall n, segment (Z.to_nat 0) n ls = take n ls).
  { intros n. unfold segment. simpl. now rewrite Nat.sub_0_r. }
  rewrite !E0.
  assert (Hrev : forall l, Permutation (reversed (sorted l)) l).
  { intros l. unfold reversed. rewrite <- Permutation_rev. apply sorted_perm. }
  assert (Hdesc : forall l, StronglySorted (flip pixel_le) (reversed (sorted l))).
  { intros l. apply reversed_sorted, sorted_sorted. }
  split; [|split; [|split]].
  - apply (replaced_generic ls a b false sorted); try lia.
    + apply sorted_perm. + apply sorted_sorted.
  - pose proof (replaced_generic ls 0 b false sorted) as H.
    rewrite E0 in H. simpl in H. apply H; try lia.
    + apply sorted_perm. + apply sorted_sorted.
  - apply (replaced_generic ls a b true (fun l => reversed (sorted l))); try lia; auto.
  - pose proof (replaced_generic ls a (len ls) true (fun l => reversed (sorted l))) as H.
    unfold segment, len in H. rewrite Nat2Z.id in H.
    rewrite (drop_ge ls (length ls)) in H by lia.
    rewrite (take_ge (drop (Z.to_nat a) ls)) in H by (rewrite length_drop; lia).
    rewrite app_nil_r in H. apply H; unfold len in *; try lia; auto.
Qed.

Lemma partialSort_short (ls : list pixel) :
  len ls < 2 -> partialSort ls = Raise ValueError /\ sortLine ls = Ret ls.
Proof.
  destruct ls as [|x [|y l]]; unfold len; simpl; intros H;
    try (split; reflexivity).
  lia.
Qed.




Lemma restoreChannel_loop c (orig line : list pixel) :
  length orig = length line ->
  forall (m j : nat) (cur : list pixel),
    (j + m)%nat = length line -> length cur = length line ->
    (forall i, (j <= i)%nat -> cur !! i = line !! i) ->
    (forall i o s, (i < j)%nat -> orig !! i = Some o -> line !! i = Some s ->
       cur !! i = Some (restore1 c o s)) ->
    exists out,
      for_in (map (fun i => 0 + Z.of_nat i) (seq j m))
        (fun px line =>
       r ← (if c =? 0 then o ← index orig px; Ret (red o)
            else l ← index line px; Ret (red l));
       g ← (if c =? 1 then o ← index orig px; Ret (green o)
            else l ← index line px; Ret (green l));
       b ← (if c =? 2 then o ← index orig px; Ret (blue o)
            else l ← index line px; Ret (blue l));
       Ret (Continue (<[Z.to_nat px := (r, g, b)]> line))) cur = Ret out /\
      length out = length line /\
      forall i o s, orig !! i = Some o -> line !! i = Some s ->
        out !! i = Some (restore1 c o s).
Proof.
  intros Hlen. induction m as [|m IH]; intros j cur Hj Hcur Hge Hlt.
  - exists cur. simpl. repeat split; auto.
    intros i o s Ho Hs. apply Hlt; auto.
    apply lookup_lt_Some in Hs. lia.
  - simpl seq. simpl map. 
    destruct (lookup_lt_is_Some_2 orig j) as [o Ho]; [lia|].
    destruct (lookup_lt_is_Some_2 line j) as [s Hs]; [lia|].
    assert (Hc : cur !! j = Some s) by (rewrite Hge; auto).
    destruct (IH (S j) (<[j := restore1 c o s]> cur)) as (out & Hout & Hl & Hall).
    + lia.
    + now rewrite length_insert.
    + intros i Hi. rewrite list_lookup_insert_ne by lia. apply Hge. lia.
    + intros i o' s' Hi Ho' Hs'. destruct (decide (i = j)) as [->|Hne].
      * rewrite list_lookup_insert_eq by lia. congruence.
      * rewrite list_lookup_insert_ne by lia. apply Hlt; auto. lia.
    + exists out. split; [|split; auto].
      rewrite <- Hout. cbn [for_in]. unfold index.
      replace (Z.to_nat (0 + Z.of_nat j)) with j by lia.
      rewrite Ho, Hc. unfold restore1.
      destruct (c =? 0), (c =? 1), (c =? 2); reflexivity.
Qed.

(** ** [pixSort]: facts *)

Lemma inside_dims (im im' : canvas) xy :
  width im' = width im -> height im' = height im -> inside im' xy = inside im xy.
Proof. intros Hw Hh. unfold inside. now rewrite Hw, Hh. Qed.

Lemma always_rowOffset g : always (offset_allowed g) (rowOffset g).
Proof.
  unfold rowOffset, probability, offset_allowed. simpl. intros [|]; simpl.
  - destruct (DITHER g) eqn:E; simpl; [|auto].
    split; [lia|]. intros i Hi. assert (i = 1 \/ i = 2) as [->| ->] by lia; auto.
  - auto.
Qed.


Lemma writeBack_written g image y startW line :
  always (fun image' => exists offs, written g image y startW line offs image')
         (writeBack g image y startW line).
Proof.
  unfold writeBack.
  apply (always_for_in
           (fun done image' => written_upto g image y startW line (length done) image')).
  - intros done x rest im' Hsplit Hinv.
    apply range_split in Hsplit as [-> Hn]. rewrite Z.add_0_l.
    replace (Z.to_nat (len line - 0)) with (length line) in Hn by (unfold len; lia).
    destruct Hinv as (offs & Hlen & _ & Hw & Hh & Hwr & Hun).
    apply always_bind. eapply always_mono; [|apply always_rowOffset].
    intros off Hoff. 
    destruct (lookup_lt_is_Some_2 line (length done) Hn) as [value Hv].
    unfold index. rewrite Nat2Z.id.
    rewrite Hv. cbn [rbind try_except].
    unfold putpixel. rewrite (inside_dims image im') by assumption.
    destruct (inside image (y + off, startW + (Z.of_nat (length done)))) eqn:Ein;
      cbn [rbind try_except always].
    + exists (offs ++ [off]). rewrite !length_app. simpl.
      split; [lia|]. split; [lia|]. split; [exact Hw|]. split; [exact Hh|].
      split.
      * intros i o Hio. destruct (decide (i = length offs)) as [->|Hne].
        -- rewrite lookup_app_r in Hio by lia. rewrite Nat.sub_diag in Hio.
           injection Hio as <-. rewrite Hlen.
           split; [exact Hoff|]. split.
           ++ exact Ein.
           ++ rewrite !Z.eqb_refl. simpl. exact Hv.
        -- assert (Hi : (i < length offs)%nat).
           { apply lookup_lt_Some in Hio. rewrite length_app in Hio. simpl in Hio. lia. }
           rewrite lookup_app_l in Hio by lia.
           destruct (Hwr i o Hio) as (Ha & Hin & Hl).
           split; [exact Ha|]. split; [exact Hin|].
           replace (startW + Z.of_nat i =? startW + (Z.of_nat (length done))) with false
             by (symmetry; apply Z.eqb_neq; lia).
           rewrite andb_false_r. exact Hl.
      * intros cx cy Hno.
        destruct ((cx =? y + off) && (cy =? startW + (Z.of_nat (length done)))) eqn:E.
        -- exfalso. apply andb_true_iff in E as [E1 E2].
           apply Z.eqb_eq in E1, E2.
           apply (Hno (length offs) off).
           ++ rewrite lookup_app_r by lia. now rewrite Nat.sub_diag.
           ++ split; [exact E1|]. lia.
        -- apply Hun. intros i o Hio. apply Hno.
           rewrite lookup_app_l; [exact Hio|]. now apply lookup_lt_Some in Hio.
    + exists offs. unfold written. rewrite Hlen.
      split; [lia|]. split; [exact Hw|]. split; [exact Hh|].
      split; [exact Hwr|]. split; [exact Hun|].
      intros _. exists off. split; [exact Hoff|]. exact Ein.
  - intros im' (offs & Hlen & Hle & Hw & Hh & Hwr & Hun).
    rewrite range_length in Hlen.
    replace (Z.to_nat (len line - 0)) with (length line) in Hlen by (unfold len; lia).
    exists offs. unfold written. rewrite Hlen.
    split; [lia|]. split; [exact Hw|]. split; [exact Hh|].
    split; [exact Hwr|]. split; [exact Hun|]. lia.
  - exists []. simpl. split; [reflexivity|]. split; [lia|].
    split; [reflexivity|]. split; [reflexivity|].
    split; [intros i off Hi; discriminate|]. auto.
Qed.

Lemma restoreChannel_spec c (orig line : list pixel) :
  0 <= c < 3 -> length orig = length line ->
  exists out, restoreChannel c orig line = Ret out /\
              channel_restored c orig line out.
Proof.
  intros Hc Hlen.
  destruct (restoreChannel_loop c orig line Hlen (length line) 0%nat line)
    as (out & Hout & Hl & Hall); auto.
  { intros i o s Hi. lia. }
  exists out. split.
  - unfold restoreChannel, range.
    replace (Z.to_nat (len line - 0)) with (length line) by (unfold len; lia).
    exact Hout.
  - split; [exact Hl|]. intros i o s Ho Hs. exists (restore1 c o s).
    split; [now apply Hall|].
    unfold channel, restore1, red, green, blue. simpl. split.
    + destruct (Z.eqb_spec c 0); [reflexivity|].
      destruct (Z.eqb_spec c 1); [reflexivity|].
      destruct (Z.eqb_spec c 2); [reflexivity|lia].
    + intros c' Hc' Hne.
      destruct (Z.eqb_spec c' 0); [destruct (Z.eqb_spec c 0); [lia|reflexivity]|].
      destruct (Z.eqb_spec c' 1); [destruct (Z.eqb_spec c 1); [lia|reflexivity]|].
      destruct (Z.eqb_spec c 2); [lia|reflexivity].
Qed.

Lemma clamp01_id q : (0 <= q)%Q -> (q <= 1)%Q -> (clamp01 q == q)%Q.
Proof.
  intros H0 H1. unfold clamp01.
  destruct (Qle_bool q 0) eqn:E0.
  - apply Qle_bool_iff in E0. now apply Qle_antisym.
  - destruct (Qle_bool 1 q) eqn:E1; [|reflexivity].
    apply Qle_bool_iff in E1. now apply Qle_antisym.
Qed.

Lemma restoreLine_dist p (orig line : list pixel) :
  (0 <= p)%Q -> (p <= 1)%Q -> length orig = length line ->
  exists out0 out1 out2,
    channel_restored 0 orig line out0 /\
    channel_restored 1 orig line out1 /\
    channel_restored 2 orig line out2 /\
    dist_equiv (dist (restoreLine p orig line))
      [ (Ok out0, (p * (75 # 100) * (1 # 3))%Q);
        (Ok out1, (p * (75 # 100) * (1 # 3))%Q);
        (Ok out2, (p * (75 # 100) * (1 # 3))%Q);
        (Ok line, (1 - p * (75 # 100))%Q) ].
Proof.
  intros H0 H1 Hlen.
  destruct (restoreChannel_spec 0 orig line) as (out0 & E0 & R0); [lia|auto|].
  destruct (restoreChannel_spec 1 orig line) as (out1 & E1 & R1); [lia|auto|].
  destruct (restoreChannel_spec 2 orig line) as (out2 & E2 & R2); [lia|auto|].
  exists out0, out1, out2. repeat (split; [assumption|]).
  assert (Hc : (clamp01 (p * (75 # 100)) == p * (75 # 100))%Q).
  { apply clamp01_id.
    - apply Qmult_le_0_compat; [exact H0|discriminate].
    - apply Qle_trans with (1 * (75 # 100))%Q; [|discriminate].
      apply Qmult_le_compat_r; [exact H1|discriminate]. }
  unfold restoreLine, probability, randrange.
  change (0 <? 3) with true. cbn [rbind dist].
  change (range 0 3) with [0; 1; 2]. cbn [flat_map].
  rewrite E0, E1, E2. simpl.
  change (1 / inject_Z (3 - 0))%Q with (1 # 3)%Q.
  unfold dist_equiv.
  repeat (constructor; [split; [reflexivity|simpl; rewrite Hc; ring]|]).
  constructor.
Qed.

Lemma sortLine_length (line : list pixel) :
  always (fun l => length l = length line) (sortLine line).
Proof.
  destruct (Z.lt_ge_cases (len line) 2) as [Hs|Hl].
  - destruct (partialSort_short line Hs) as [_ ->]. reflexivity.
  - unfold sortLine. apply always_try_except. unfold partialSort.
    apply always_bind, always_randrange; [lia|]. intros a Ha.
    apply always_bind, always_randrange; [lia|]. intros b Hb.
    destruct (partialSort_out_replaced line a b) as (R1 & R2 & R3 & R4);
      [lia|lia|].
    intros [|] [|]; simpl.
    + apply R1. + apply R2. + apply R3. + apply R4.
Qed.

Lemma restoreLine_length p (orig line : list pixel) :
  length orig = length line ->
  always (fun l => length l = length line) (restoreLine p orig line).
Proof.
  intros Hlen. unfold restoreLine.
  apply always_bind, always_probability; [|reflexivity].
  apply always_bind, always_randrange; [lia|]. intros c Hc.
  destruct (restoreChannel_spec c orig line Hc Hlen) as (out & -> & Hl & _).
  exact Hl.
Qed.

Lemma readLine_total image y startW endW :
  always (fun _ => True) (readLine image y startW endW).
Proof.
  unfold readLine.
  apply (always_for_in (fun _ _ => True)); auto.
  intros done x rest line _ _. destruct (getpixel image (y, x)); simpl; auto.
Qed.

Lemma pixSort_dims g image startW startH endW endH p :
  always (fun image' => width image' = width image /\
                        height image' = height image)
         (pixSort g image startW startH endW endH p).
Proof.
  unfold pixSort.
  apply (always_for_in
           (fun _ image' => width image' = width image /\
                            height image' = height image)); auto.
  intros done y rest im' _ [Hw Hh].
  apply always_bind, always_probability; [|simpl; auto].
  apply always_bind. eapply always_mono; [|apply readLine_total].
  intros line _.
  apply always_bind. eapply always_mono; [|apply sortLine_length].
  intros line' Hl.
  apply always_bind. eapply always_mono; [|apply restoreLine_length; auto].
  intros line'' _.
  apply always_bind. eapply always_mono; [|apply writeBack_written].
  intros im'' (offs & _ & Hw' & Hh' & _). simpl. split; congruence.
Qed.

(** ** [glitch]: facts *)


Lemma blockRatio_nonzero blocks : 1 <= blocks -> Qeq_bool (blockRatio blocks) 0 = false.
Proof.
  intros Hb. apply not_true_is_false. intros H. apply Qeq_bool_iff in H.
  unfold blockRatio in H.
  assert (H1 : 0 < blocks ^ 2) by (apply Z.pow_pos_nonneg; lia).
  assert (H2 : 0 < (blocks + 1) ^ 2) by (apply Z.pow_pos_nonneg; lia).
  revert H. unfold Qeq, Qdiv, Qmult, Qinv, inject_Z. simpl.
  destruct ((blocks + 1) ^ 2) as [|q|q]; try lia. simpl. lia.
Qed.

Lemma always_blockProbability g blocks :
  1 <= blocks -> always (block_p g blocks) (blockProbability g blocks).
Proof.
  intros Hb. unfold blockProbability, truediv, fpow.
  destruct ((blocks + 1) ^ 2 =? 0) eqn:E.
  { apply Z.eqb_eq in E. assert (0 < (blocks + 1) ^ 2) by (apply Z.pow_pos_nonneg; lia). lia. }
  cbn [rbind]. fold (blockRatio blocks). rewrite (blockRatio_nonzero blocks Hb).
  apply always_bind, always_randrange; [lia|]. intros k Hk. simpl.
  exists k. auto.
Qed.

Lemma blockProbability_dist g blocks :
  1 <= blocks ->
  let lo := blocks - 4 + INTENSITY g in
  dist_equiv (dist (blockProbability g blocks))
    [ (Ok (1 - blockRatio blocks ^ lo)%Q, 1 # 3);
      (Ok (1 - blockRatio blocks ^ (lo + 1))%Q, 1 # 3);
      (Ok (1 - blockRatio blocks ^ (lo + 2))%Q, 1 # 3) ].
Proof.
  intros Hb lo. unfold blockProbability, truediv, fpow, randrange.
  destruct ((blocks + 1) ^ 2 =? 0) eqn:E.
  { apply Z.eqb_eq in E. assert (0 < (blocks + 1) ^ 2) by (apply Z.pow_pos_nonneg; lia). lia. }
  cbn [rbind]. fold (blockRatio blocks). rewrite (blockRatio_nonzero blocks Hb).
  fold lo. replace (blocks - 1 + INTENSITY g) with (lo + 3) by (unfold lo; lia).
  destruct (lo <? lo + 3) eqn:E1; [|lia].
  cbn [rbind dist andb]. rewrite range_three. 
  replace (lo + 3 - lo) with 3 by lia. simpl.
  unfold dist_equiv.
  repeat (constructor; [split; [reflexivity|simpl; reflexivity]|]).
  constructor.
Qed.

Lemma cond_iff c d M :
  Qle_bool (inject_Z c + inject_Z (d * 2) / 3) (inject_Z (M * 2)) = true
  <-> 3 * c + 2 * d <= 6 * M.
Proof.
  rewrite Qle_bool_iff.
  unfold Qle, Qplus, Qdiv, Qmult, Qinv, inject_Z. simpl. lia.
Qed.

Lemma cond_false_iff c d M :
  Qle_bool (inject_Z c + inject_Z (d * 2) / 3) (inject_Z (M * 2)) = false
  <-> ~ 3 * c + 2 * d <= 6 * M.
Proof. rewrite <- cond_iff. destruct (Qle_bool _ _); split; congruence. Qed.

Lemma stride_eq blocks d :
  0 <= d -> stride blocks d = if blocks >? 1 then d * 2 / 3 else d.
Proof.
  intros Hd. unfold stride. destruct (blocks >? 1); [|reflexivity].
  change 3%Q with (inject_Z 3). apply int_div; lia.
Qed.

Lemma max_outer a b : (if a >=? b then a else b) = Z.max b a.
Proof. destruct (Z.geb_spec a b); lia. Qed.
Lemma max_inner a b : (if a >=? b then a else b) = Z.max a b.
Proof. destruct (Z.geb_spec a b); lia. Qed.

Section TilingRules.
Context {St : Type}.
Variable visit : St -> Z -> Z -> Z -> Z -> Q -> Rand St.
Variables (g : globals) (blocks wBlock hBlock : Z).
Hypothesis Hblocks : 1 <= blocks.

Let M := Z.max (IMAGE_WIDTH g) (IMAGE_HEIGHT g).

(** Any fuel: what every block keeps is kept by the pass. *)
Lemma tiling_partial (I : St -> Prop) fuel image :
  (forall st sW sH eW eH p, I st -> block_p g blocks p ->
     always I (visit st sW sH eW eH p)) ->
  I image ->
  always (fun r => forall st, r = Some st -> I st)
         (tiling visit fuel g blocks wBlock hBlock image).
Proof.
  intros Hvisit HI. unfold tiling.
  apply always_bind.
  eapply always_mono;
    [|apply (always_while (fun s : St * Z => I s.1))].
  - intros [[st ch]|] Hr; simpl.
    + intros st' [= <-]. now destruct (Hr _ eq_refl).
    + discriminate.
  - intros [st ch] HI0 _. simpl in HI0.
    apply always_bind.
    eapply always_mono;
      [|apply (always_while (fun s : St * Z => I s.1))].
    + intros [[st' cw]|] Hr; simpl.
      * intros s' [= <-]. now destruct (Hr _ eq_refl).
      * discriminate.
    + intros [st' cw] HI1 _. simpl in HI1.
      apply always_bind.
      eapply always_mono; [|apply always_blockProbability; assumption].
      intros p Hp. apply always_bind.
      eapply always_mono; [|apply Hvisit; eassumption].
      intros st'' HI2. simpl. intros s' [= <-]. exact HI2.
    + exact HI0.
  - exact HI.
Qed.

(** Enough fuel: the pass ends, and the invariants [Iout] (between two
    rows of blocks) and [Iin] (between two blocks of a row) hold. *)
Lemma tiling_total (Iout : Z -> St -> Prop) (Iin : Z -> Z -> St -> Prop)
    image :
  0 <= wBlock -> 0 <= hBlock ->
  1 <= stride blocks wBlock -> 1 <= stride blocks hBlock ->
  Iout 0 image ->
  (forall ch st, 0 <= ch -> Iout ch st -> 3 * ch + 2 * hBlock <= 6 * M ->
     Iin ch 0 st) ->
  (forall ch cw st p, 0 <= ch -> 0 <= cw -> Iin ch cw st ->
     3 * cw + 2 * wBlock <= 6 * M -> block_p g blocks p ->
     always (Iin ch (cw + stride blocks wBlock))
            (visit st ch cw (ch + hBlock) (cw + wBlock) p)) ->
  (forall ch cw st, 0 <= ch -> 0 <= cw -> Iin ch cw st ->
     ~ 3 * cw + 2 * wBlock <= 6 * M ->
     Iout (ch + stride blocks hBlock) st) ->
  exists fuel,
    always (fun r => exists st ch, r = Some st /\ 0 <= ch /\ Iout ch st /\
                                   ~ 3 * ch + 2 * hBlock <= 6 * M)
           (tiling visit fuel g blocks wBlock hBlock image).
Proof.
  intros Hw Hh Hsw Hsh H0 Henter Hvisit Hexit.
  exists (Z.to_nat (Z.max 0 (2 * M) + 3)). unfold tiling.
  apply always_bind.
  eapply always_mono;
    [|apply (always_while_total
               (fun s : St * Z => 0 <= s.2 /\ Iout s.2 s.1)
               (fun s : St * Z => 2 * M - s.2))].
  - intros r ([st ch] & -> & [Hch HI] & Hc). simpl in *.
    rewrite max_outer in Hc. apply cond_false_iff in Hc.
    exists st, ch. fold M in Hc. auto.
  - intros [st ch] [Hch HI] Hc. simpl in *.
    rewrite max_outer in Hc. apply cond_iff in Hc. fold M in Hc.
    split; [lia|].
    apply always_bind.
    eapply always_mono;
      [|apply (always_while_total
                 (fun s : St * Z => 0 <= s.2 /\ Iin ch s.2 s.1)
                 (fun s : St * Z => 2 * M - s.2))].
    + intros r ([st' cw] & -> & [Hcw HI'] & Hc'). simpl in *.
      rewrite max_inner in Hc'. apply cond_false_iff in Hc'. fold M in Hc'.
      eexists. split; [reflexivity|]. simpl.
      fold (stride blocks hBlock).
      split; [split; [lia|eapply Hexit; eauto]|lia].
    + intros [st' cw] [Hcw HI'] Hc'. simpl in *.
      rewrite max_inner in Hc'. apply cond_iff in Hc'. fold M in Hc'.
      split; [lia|].
      apply always_bind.
      eapply always_mono; [|apply always_blockProbability; assumption].
      intros p Hp. apply always_bind.
      eapply always_mono; [|apply (Hvisit ch cw st' p); assumption].
      intros st'' HI''. simpl.
      eexists. split; [reflexivity|]. simpl.
      fold (stride blocks wBlock). split; [split; [lia|exact HI'']|lia].
    + simpl. split; [lia|]. apply Henter; auto.
    + simpl. lia.
  - simpl. split; [lia|exact H0].
  - simpl. lia.
Qed.

(** A step of zero along one axis: the pass never ends. *)
Lemma tiling_diverges fuel image :
  (forall st sW sH eW eH p, always (fun _ => True) (visit st sW sH eW eH p)) ->
  2 * wBlock <= 6 * M -> 2 * hBlock <= 6 * M ->
  stride blocks wBlock = 0 \/ stride blocks hBlock = 0 ->
  always (fun r => r = None)
         (tiling visit fuel g blocks wBlock hBlock image).
Proof.
  intros Hvisit Hw Hh Hzero. unfold tiling.
  apply always_bind.
  eapply always_mono;
    [|apply (always_while_diverges (fun s : St * Z => s.2 = 0))].
  - intros r ->. reflexivity.
  - intros [st ch] Hch. simpl in Hch. subst ch. split.
    + rewrite max_outer. apply cond_iff. fold M. lia.
    + apply always_bind. destruct Hzero as [Hz|Hz].
      * eapply always_mono;
          [|apply (always_while_diverges (fun s : St * Z => s.2 = 0))].
        -- intros r ->. simpl. discriminate.
        -- intros [st' cw] Hcw. simpl in Hcw. subst cw. split.
           ++ rewrite max_inner. apply cond_iff. fold M. lia.
           ++ apply always_bind.
              eapply always_mono; [|apply always_blockProbability; assumption].
              intros p _. apply always_bind.
              eapply always_mono; [|apply Hvisit].
              intros st'' _. simpl. intros s' [= <-]. simpl.
              fold (stride blocks wBlock). lia.
        -- reflexivity.
      * eapply always_mono;
          [|apply (always_while (fun _ : St * Z => True))].
        -- intros [[st' cw]|] _; simpl; [|discriminate].
           intros s' [= <-]. simpl. fold (stride blocks hBlock). lia.
        -- intros [st' cw] _ _.
           apply always_bind.
           eapply always_mono; [|apply always_blockProbability; assumption].
           intros p _. apply always_bind.
           eapply always_mono; [|apply Hvisit].
           intros st'' _. simpl. auto.
        -- exact Logic.I.
  - reflexivity.
Qed.
End TilingRules.

(** ** [partialSort] and the short lines *)

(** C1.  For a list of length [N >= 2], [partialSort] draws [a] uniformly
    in [[0, N-2]] and [b] uniformly in [[a+1, N-1]] and returns, without
    raising, the input with one of four replacements: with chance
    [0.5 * 0.95] the range [[a, b)] in ascending order, with chance
    [0.5 * 0.05] the prefix [[0, b)] in ascending order, with chance
    [0.5 * 0.95] the range [[a, b)] in descending order, and with chance
    [0.5 * 0.05] the suffix [[a, N)] in descending order.  The positions
    outside of the replaced range keep their pixels, the range keeps its
    pixels up to their order, and the order is the lexicographic order of
    [(R, G, B)]. *)
Theorem partialSort_distribution (ls : list pixel) :
  2 <= len ls ->
  exists out : Z -> Z -> replacement -> list pixel,
    (forall a b, 0 <= a <= len ls - 2 -> a + 1 <= b <= len ls - 1 ->
       replaced a b false ls (out a b AscMiddle) /\
       replaced 0 b false ls (out a b AscBeginning) /\
       replaced a b true ls (out a b DescMiddle) /\
       replaced a (len ls) true ls (out a b DescEnd)) /\
    dist_equiv (dist (partialSort ls)) (partialSort_dist (len ls) out).
Proof.
  intros HN. exists (partialSort_out ls). split.
  - intros a b Ha Hb. now apply partialSort_out_replaced.
  - now apply partialSort_dist_equiv.
Qed.

Lemma partialSort_distribution_witness :
  2 <= len [(3, 0, 0); (2, 0, 0); (1, 0, 0)] /\
  exists out : Z -> Z -> replacement -> list pixel,
    (forall a b, 0 <= a <= len [(3, 0, 0); (2, 0, 0); (1, 0, 0)] - 2 ->
       a + 1 <= b <= len [(3, 0, 0); (2, 0, 0); (1, 0, 0)] - 1 ->
       replaced a b false [(3, 0, 0); (2, 0, 0); (1, 0, 0)] (out a b AscMiddle) /\
       replaced 0 b false [(3, 0, 0); (2, 0, 0); (1, 0, 0)] (out a b AscBeginning) /\
       replaced a b true [(3, 0, 0); (2, 0, 0); (1, 0, 0)] (out a b DescMiddle) /\
       replaced a (len [(3, 0, 0); (2, 0, 0); (1, 0, 0)]) true
                [(3, 0, 0); (2, 0, 0); (1, 0, 0)] (out a b DescEnd)) /\
    dist_equiv (dist (partialSort [(3, 0, 0); (2, 0, 0); (1, 0, 0)]))
               (partialSort_dist (len [(3, 0, 0); (2, 0, 0); (1, 0, 0)]) out).
Proof.
  split.
  - vm_compute. discriminate.
  - apply (partialSort_distribution [(3, 0, 0); (2, 0, 0); (1, 0, 0)]).
    vm_compute. discriminate.
Defined.

(** C3, as stated, fails: on a list of one pixel [partialSort] does not
    return the list, it raises [ValueError]. *)
Lemma partialSort_short_counterexample :
  ~ always (fun out => out = [(1, 2, 3)]) (partialSort [(1, 2, 3)]) /\
  dist (partialSort [(1, 2, 3)]) = [(Err ValueError, 1%Q)].
Proof. split; [intros []|reflexivity]. Qed.

(** C3, amended.  On a list of length 0 or 1, [partialSort] raises
    [ValueError] before any draw; its caller in [pixSort] ([sortLine])
    catches the exception and keeps the line as it was read. *)
Theorem partialSort_short_raises (ls : list pixel) :
  len ls < 2 -> partialSort ls = Raise ValueError /\ sortLine ls = Ret ls.
Proof. apply partialSort_short. Qed.

Lemma partialSort_short_raises_witness :
  len [(1, 2, 3)] < 2 /\
  partialSort [(1, 2, 3)] = Raise ValueError /\
  sortLine [(1, 2, 3)] = Ret [(1, 2, 3)].
Proof.
  split.
  - vm_compute. reflexivity.
  - apply (partialSort_short_raises [(1, 2, 3)]). vm_compute. reflexivity.
Defined.

Lemma pixel_channels (r s : pixel) :
  (forall c, 0 <= c < 3 -> channel c r = channel c s) -> r = s.
Proof.
  intros H. destruct r as [[r1 r2] r3], s as [[s1 s2] s3].
  pose proof (H 0 ltac:(lia)) as H0.
  pose proof (H 1 ltac:(lia)) as H1.
  pose proof (H 2 ltac:(lia)) as H2.
  unfold channel, red, green, blue in *. simpl in *. congruence.
Qed.

Lemma restoreLine_same p (line : list pixel) :
  always (fun l => l = line) (restoreLine p line line).
Proof.
  unfold restoreLine.
  apply always_bind, always_probability; [|reflexivity].
  apply always_bind, always_randrange; [lia|]. intros c Hc.
  destruct (restoreChannel_spec c line line Hc eq_refl) as (out & -> & Hl & Hall).
  simpl. apply list_eq. intros i.
  destruct (line !! i) as [s|] eqn:Es.
  - destruct (Hall i s s Es Es) as (r & -> & H1 & H2).
    f_equal. apply pixel_channels. intros c' Hc'.
    destruct (decide (c' = c)) as [->|Hne]; auto.
  - apply lookup_ge_None. rewrite Hl. now apply lookup_ge_None.
Qed.

(** C6.  On a line of length 0 or 1 the sort step of [pixSort] does not
    fail: whatever comes after it in the row runs on the line as it was
    read.  The channel restore then returns that same line, the write-back
    writes it, and [pixSort] as a whole never raises. *)
Theorem sortLine_short_passes (g : globals) (image : canvas)
    (y startW : Z) (p : Q) (line : list pixel) :
  len line < 2 ->
  (forall (B : Type) (k : list pixel -> Rand B),
     (l ← sortLine line; k l) = k line) /\
  always (fun l => l = line) (restoreLine p line line) /\
  always (fun image' => exists offs, written g image y startW line offs image')
         (writeBack g image y startW line) /\
  (forall startH endW endH,
     always (fun _ => True) (pixSort g image startW startH endW endH p)).
Proof.
  intros Hs. split; [|split; [|split]].
  - intros B k. destruct (partialSort_short line Hs) as [_ ->]. reflexivity.
  - apply restoreLine_same.
  - apply writeBack_written.
  - intros startH endW endH. eapply always_mono; [|apply pixSort_dims]. auto.
Qed.

Lemma sortLine_short_passes_witness :
  len [(1, 2, 3)] < 2 /\
  (forall (B : Type) (k : list pixel -> Rand B),
     (l ← sortLine [(1, 2, 3)]; k l) = k [(1, 2, 3)]) /\
  always (fun l => l = [(1, 2, 3)])
         (restoreLine (1 # 2) [(1, 2, 3)] [(1, 2, 3)]) /\
  always (fun image' =>
            exists offs,
              written (plain 3 3 1 false) (blank 3 3) 0 0 [(1, 2, 3)] offs image')
         (writeBack (plain 3 3 1 false) (blank 3 3) 0 0 [(1, 2, 3)]) /\
  (forall startH endW endH,
     always (fun _ => True)
            (pixSort (plain 3 3 1 false) (blank 3 3) 0 startH endW endH (1 # 2))).
Proof.
  split.
  - vm_compute. reflexivity.
  - apply (sortLine_short_passes (plain 3 3 1 false) (blank 3 3) 0 0 (1 # 2)
                                 [(1, 2, 3)]).
    vm_compute. reflexivity.
Defined.

(** ** The write-back and the channel restore *)

Lemma rowOffset_dist g :
  dist_equiv (dist (rowOffset g))
    (if DITHER g
     then [ (Ok 1, ((1 # 10) * (1 # 2))%Q);
            (Ok 2, ((1 # 10) * (1 # 2))%Q);
            (Ok 1, (1 - (1 # 10))%Q) ]
     else [ (Ok 1, (1 # 10)%Q); (Ok 1, (1 - (1 # 10))%Q) ]).
Proof.
  unfold rowOffset, probability. destruct (DITHER g); simpl;
    unfold dist_equiv;
    repeat (constructor; [split; [reflexivity|simpl; reflexivity]|]);
    constructor.
Qed.

(** A coordinate is the target of one of the writes, or of none. *)
Lemma write_target (offs : list Z) (y startW cx cy : Z) :
  (exists (i : nat) off, offs !! i = Some off /\
                         cx = y + off /\ cy = startW + Z.of_nat i) \/
  (forall (i : nat) off, offs !! i = Some off ->
     ~ (cx = y + off /\ cy = startW + Z.of_nat i)).
Proof.
  destruct (Z.lt_ge_cases (cy - startW) 0) as [Hneg|Hpos].
  - right. intros i off _ [_ H]. lia.
  - destruct (offs !! Z.to_nat (cy - startW)) as [off|] eqn:E.
    + destruct (Z.eq_dec cx (y + off)) as [Hx|Hx].
      * left. exists (Z.to_nat (cy - startW)), off. split; [exact E|]. lia.
      * right. intros i off' Hi [H1 H2].
        assert (i = Z.to_nat (cy - startW)) by lia. subst i. congruence.
    + right. intros i off' Hi [H1 H2].
      assert (i = Z.to_nat (cy - startW)) by lia. subst i. congruence.
Qed.

Lemma dist_equiv_refl {A} (d : list (A * Q)) : dist_equiv d d.
Proof.
  induction d as [|x d IH]; constructor; [|exact IH].
  split; reflexivity.
Qed.

Lemma dist_equiv_app {A} (d1 d2 e1 e2 : list (A * Q)) :
  dist_equiv d1 e1 -> dist_equiv d2 e2 -> dist_equiv (d1 ++ d2) (e1 ++ e2).
Proof. apply Forall2_app. Qed.

Lemma dist_equiv_scale {A} (w w' : Q) (d e : list (A * Q)) :
  (w == w')%Q -> dist_equiv d e -> dist_equiv (scale w d) (scale w' e).
Proof.
  intros Hw H. induction H as [|x y d e [Hxy Hq] H IH]; simpl; constructor.
  - simpl. split; [exact Hxy|]. now rewrite Hw, Hq.
  - exact IH.
Qed.

Lemma dist_equiv_scale_scale {A} (a b c : Q) (d e : list (A * Q)) :
  (a * b == c)%Q -> dist_equiv d e ->
  dist_equiv (scale a (scale b d)) (scale c e).
Proof.
  intros Hw H. induction H as [|x y d e [Hxy Hq] H IH]; simpl; constructor.
  - simpl. split; [exact Hxy|]. rewrite <- Hw, Hq. ring.
  - exact IH.
Qed.

Lemma dist_equiv_trans {A} (d1 d2 d3 : list (A * Q)) :
  dist_equiv d1 d2 -> dist_equiv d2 d3 -> dist_equiv d1 d3.
Proof.
  intros H12. revert d3. induction H12 as [|x y d e [Hxy Hq] H IH];
    intros d3 H23; inversion H23 as [|y' z e' f [Hyz Hq'] H']; subst.
  - constructor.
  - constructor; [|now apply IH].
    split; [congruence|]. now rewrite Hq.
Qed.

Lemma scale_app {A} (w : Q) (d e : list (A * Q)) :
  scale w (d ++ e) = scale w d ++ scale w e.
Proof. unfold scale. apply map_app. Qed.

Lemma writeBack_step_law (g : globals) (image : canvas) (y startW x : Z)
    (value : pixel) (loop : canvas -> Rand canvas)
    (law : canvas -> list (result canvas * Q)) :
  (forall image', dist_equiv (dist (loop image')) (law image')) ->
  dist_equiv
    (dist (r ← (off ← rowOffset g;
                r ← try_except
                      (match putpixel image (y + off, startW + x) value with
                       | Some image' => Ret (Continue image')
                       | None => Raise IndexError
                       end)
                      (fun e => match e with
                                | IndexError => Ret (Break image)
                                | _ => Raise e
                                end);
                Ret r);
           match r with
           | Continue s' => loop s'
           | Break s' => Ret s'
           end))
    (flat_map
       (fun ow : Z * Q =>
          match putpixel image (y + ow.1, startW + x) value with
          | Some image' => scale ow.2 (law image')
          | None => scale ow.2 [(Ok image, 1%Q)]
          end)
       (offset_law g)).
Proof.
  intros Hloop.
  assert (Hleaf : forall off (w w' : Q), (w == w')%Q ->
    dist_equiv
      (scale w
         (dist (r ← (r ← try_except
                      (match putpixel image (y + off, startW + x) value with
                       | Some image' => Ret (Continue image')
                       | None => Raise IndexError
                       end)
                      (fun e => match e with
                                | IndexError => Ret (Break image)
                                | _ => Raise e
                                end);
                Ret r);
           match r with
           | Continue s' => loop s'
           | Break s' => Ret s'
           end)))
      (match putpixel image (y + off, startW + x) value with
       | Some image' => scale w' (law image')
       | None => scale w' [(Ok image, 1%Q)]
       end)).
  { intros off w w' Hw.
    destruct (putpixel image (y + off, startW + x) value);
      cbn [try_except rbind]; apply dist_equiv_scale; auto.
    apply dist_equiv_refl. }
  unfold rowOffset, probability, randrange, offset_law.
  destruct (DITHER g); change (1 <? 3) with true; cbn [rbind dist andb].
  - change (range 1 3) with [1; 2]. cbn [flat_map fst snd].
    change (clamp01 (1 # 10)) with (1 # 10)%Q.
    rewrite !app_nil_r, scale_app, <- app_assoc.
    repeat apply dist_equiv_app.
    + eapply dist_equiv_trans;
        [apply dist_equiv_scale_scale; [reflexivity|apply dist_equiv_refl]|].
      apply Hleaf. reflexivity.
    + eapply dist_equiv_trans;
        [apply dist_equiv_scale_scale; [reflexivity|apply dist_equiv_refl]|].
      apply Hleaf. reflexivity.
    + apply Hleaf. reflexivity.
  - cbn [flat_map fst snd].
    change (clamp01 (1 # 10)) with (1 # 10)%Q.
    rewrite !app_nil_r.
    repeat apply dist_equiv_app; apply Hleaf; reflexivity.
Qed.

Lemma writeBack_loop_law (g : globals) (y startW : Z) (line : list pixel) :
  forall (m j : nat) (image : canvas),
    (j + m)%nat = length line ->
    dist_equiv
      (dist (for_in (map (fun i => 0 + Z.of_nat i) (seq j m))
    (fun x image =>
       off ← rowOffset g;
       r ← try_except
             (value ← index line x;
              match putpixel image (y + off, startW + x) value with
              | Some image' => Ret (Continue image')
              | None => Raise IndexError
              end)
             (fun e => match e with
                       | IndexError => Ret (Break image)
                       | _ => Raise e
                       end);
       Ret r)
    image))
      (writeBack_law g image y startW (Z.of_nat j) (drop j line)).
Proof.
  induction m as [|m IH]; intros j image Hj.
  - rewrite drop_ge by lia. simpl. apply dist_equiv_refl.
  - destruct (lookup_lt_is_Some_2 line j) as [value Hv]; [lia|].
    rewrite (drop_S _ _ _ Hv).
    cbn [seq map for_in writeBack_law].
    unfold index at 1. replace (Z.to_nat (0 + Z.of_nat j)) with j by lia.
    rewrite Hv. rewrite Z.add_0_l. cbn [rbind].
    apply (writeBack_step_law g image y startW (Z.of_nat j) value
             (fun s' => for_in (map (fun i => 0 + Z.of_nat i) (seq (S j) m)) _ s')
             (fun image' => writeBack_law g image' y startW (Z.of_nat j + 1)
                                          (drop (S j) line))).
    intros image'. replace (Z.of_nat j + 1) with (Z.of_nat (S j)) by lia.
    apply IH. lia.
Qed.

Lemma writeBack_dist (g : globals) (image : canvas) (y startW : Z)
    (line : list pixel) :
  dist_equiv (dist (writeBack g image y startW line))
             (writeBack_law g image y startW 0 line).
Proof.
  unfold writeBack, range.
  replace (Z.to_nat (len line - 0)) with (length line) by (unfold len; lia).
  apply (writeBack_loop_law g y startW line (length line) 0%nat image).
  reflexivity.
Qed.

(** C2, amended.  The write-back takes the pixels of the line in the order
    of their columns.  Each write draws its row offset on its own: without
    dithering the offset is always 1; with dithering it is drawn with
    chance 10% uniformly from {1, 2} and is 1 otherwise.  Pixel [x] of the
    line is written at [(y + offset, startW + x)], one or two rows after
    the row [y] it was read from, and the first write outside of the
    picture ends the write-back: the distribution of the result is
    [writeBack_law].  So every pixel of the picture that changes is a pixel
    of the line, in the column of its position, at an allowed offset; and
    when every such write is inside of the picture, every pixel of the line
    is written.  The row and the first column are not negative, as in the
    calls of the program. *)
Theorem writeBack_rows (g : globals) (image : canvas) (y startW : Z)
    (line : list pixel) :
  0 <= y -> 0 <= startW ->
  dist_equiv (dist (rowOffset g))
    (if DITHER g
     then [ (Ok 1, ((1 # 10) * (1 # 2))%Q);
            (Ok 2, ((1 # 10) * (1 # 2))%Q);
            (Ok 1, (1 - (1 # 10))%Q) ]
     else [ (Ok 1, (1 # 10)%Q); (Ok 1, (1 - (1 # 10))%Q) ]) /\
  dist_equiv (dist (writeBack g image y startW line))
             (writeBack_law g image y startW 0 line) /\
  always (fun image' =>
            (forall cx cy, pixels image' cx cy <> pixels image cx cy ->
               exists (i : nat) px,
                 line !! i = Some px /\ cy = startW + Z.of_nat i /\
                 pixels image' cx cy = px /\ offset_allowed g (cx - y)) /\
            ((forall (i : nat) off, (i < length line)%nat ->
                offset_allowed g off ->
                inside image (y + off, startW + Z.of_nat i) = true) ->
             forall (i : nat) px, line !! i = Some px ->
               exists off, offset_allowed g off /\
                           pixels image' (y + off) (startW + Z.of_nat i) = px))
         (writeBack g image y startW line).
Proof.
  intros _ _.
  split; [apply rowOffset_dist|]. split; [apply writeBack_dist|].
  eapply always_mono; [|apply writeBack_written].
  intros image' (offs & Hlen & _ & _ & Hwr & Hun & Hstop). split.
  - intros cx cy Hne.
    destruct (write_target offs y startW cx cy) as [(i & off & Hi & -> & ->)|Hno].
    + destruct (Hwr i off Hi) as (Ha & _ & Hl).
      exists i, (pixels image' (y + off) (startW + Z.of_nat i)).
      replace (y + off - y) with off by lia. auto.
    + exfalso. apply Hne. now apply Hun.
  - intros Hin i px Hi.
    assert (Hfull : length offs = length line).
    { destruct (Nat.lt_ge_cases (length offs) (length line)) as [Hlt|Hge]; [|lia].
      destruct (Hstop Hlt) as (off & Ha & Hout).
      rewrite Hin in Hout by assumption. discriminate. }
    destruct (lookup_lt_is_Some_2 offs i) as [off Ho].
    { rewrite Hfull. now apply lookup_lt_Some in Hi. }
    destruct (Hwr i off Ho) as (Ha & _ & Hl).
    exists off. split; [exact Ha|]. congruence.
Qed.

Lemma writeBack_rows_witness :
  let g := plain 3 3 1 true in
  let image := blank 3 3 in
  let line := [white; white] in
  0 <= 1 /\ 0 <= 0 /\
  dist_equiv (dist (rowOffset g))
    [ (Ok 1, ((1 # 10) * (1 # 2))%Q);
      (Ok 2, ((1 # 10) * (1 # 2))%Q);
      (Ok 1, (1 - (1 # 10))%Q) ] /\
  dist_equiv (dist (writeBack g image 1 0 line))
             (writeBack_law g image 1 0 0 line) /\
  Forall2 Qeq (map snd (writeBack_law g image 1 0 0 line))
          [ 1 # 400; 1 # 400; 9 # 200; 1 # 20; 9 # 200; 9 # 200; 81 # 100 ]%Q /\
  always (fun image' =>
            forall cx cy, pixels image' cx cy <> pixels image cx cy ->
              exists (i : nat) px,
                line !! i = Some px /\ cy = 0 + Z.of_nat i /\
                pixels image' cx cy = px /\ offset_allowed g (cx - 1))
         (writeBack g image 1 0 line).
Proof.
  intros g image line.
  assert (H1 : 0 <= 1) by lia.
  assert (H0 : 0 <= 0) by lia.
  destruct (writeBack_rows g image 1 0 line H1 H0) as (Hoff & Hlaw & Hall).
  split; [exact H1|]. split; [exact H0|]. split; [exact Hoff|].
  split; [exact Hlaw|]. split.
  - vm_compute. repeat (constructor; [reflexivity|]). constructor.
  - eapply always_mono; [|exact Hall]. intros image' [Hch _]. exact Hch.
Defined.

(** C2, as stated, fails: without dithering, a line of one white pixel
    read at row 0 of a black picture is not written at row 0, which stays
    black, but at row 1. *)
Lemma writeBack_same_row_counterexample :
  ~ always (fun image' => getpixel image' (0, 0) = Some white)
           (writeBack (plain 3 3 1 false) (blank 3 3) 0 0 [white]) /\
  always (fun image' => getpixel image' (0, 0) = Some black /\
                        getpixel image' (1, 0) = Some white)
         (writeBack (plain 3 3 1 false) (blank 3 3) 0 0 [white]).
Proof.
  split.
  - intros H. specialize (H true). simpl in H. discriminate H.
  - intros [|]; simpl; split; reflexivity.
Qed.

(** C4, amended.  The write-back never fails, and it ends at the first
    write that falls outside of the picture: the pixels before it are
    written, and from the column of that pixel on nothing is written, also
    where the coordinates would be inside. *)
Theorem writeBack_stops_outside (g : globals) (image : canvas) (y startW : Z)
    (line : list pixel) :
  always (fun image' =>
            exists n : nat,
              (n <= length line)%nat /\
              (forall i : nat, (i < n)%nat ->
                 exists off, offset_allowed g off /\
                   inside image (y + off, startW + Z.of_nat i) = true /\
                   line !! i = Some (pixels image' (y + off)
                                            (startW + Z.of_nat i))) /\
              (forall cx cy, startW + Z.of_nat n <= cy ->
                 pixels image' cx cy = pixels image cx cy) /\
              ((n < length line)%nat ->
               exists off, offset_allowed g off /\
                 inside image (y + off, startW + Z.of_nat n) = false))
         (writeBack g image y startW line).
Proof.
  eapply always_mono; [|apply writeBack_written].
  intros image' (offs & Hlen & _ & _ & Hwr & Hun & Hstop).
  exists (length offs). split; [exact Hlen|]. split; [|split].
  - intros i Hi. destruct (lookup_lt_is_Some_2 offs i Hi) as [off Ho].
    exists off. now apply Hwr.
  - intros cx cy Hcy. apply Hun. intros i off Hi [_ ->].
    apply lookup_lt_Some in Hi. lia.
  - exact Hstop.
Qed.

(** C4, as stated, fails: with dithering, at row 1 of a 3 x 3 picture, the
    first pixel is moved by 2 rows and falls outside; the loop ends there
    (the draw of the second pixel is never made), and the second pixel,
    whose place [(2, 1)] is inside, is not written. *)
Lemma writeBack_drop_counterexample :
  exists image' rest,
    run (writeBack (plain 3 3 1 true) (blank 3 3) 1 0 [white; white])
        [DrawRandom 0; DrawRange 2; DrawRandom (1 # 2)]
    = Some (Ok image', rest) /\
    rest = [DrawRandom (1 # 2)] /\
    inside (blank 3 3) (1 + 1, 0 + 1) = true /\
    getpixel image' (1 + 1, 0 + 1) = Some black.
Proof.
  eexists. eexists. split; [reflexivity|]. repeat split; reflexivity.
Qed.

(** C7.  For [0 <= p <= 1] the channel restore is taken with chance
    [0.75 * p]; the channel is then 0, 1 or 2 with chance 1/3 each, and
    the result has, at every position, that channel of the original line
    and the two other channels of the sorted line.  The two lines have the
    same length, because the sort step keeps the length. *)
Theorem restoreLine_distribution (p : Q) (originalLine line : list pixel) :
  (0 <= p)%Q -> (p <= 1)%Q ->
  always (fun l => length l = length originalLine) (sortLine originalLine) /\
  (length line = length originalLine ->
   exists out0 out1 out2,
     channel_restored 0 originalLine line out0 /\
     channel_restored 1 originalLine line out1 /\
     channel_restored 2 originalLine line out2 /\
     dist_equiv (dist (restoreLine p originalLine line))
       [ (Ok out0, (p * (75 # 100) * (1 # 3))%Q);
         (Ok out1, (p * (75 # 100) * (1 # 3))%Q);
         (Ok out2, (p * (75 # 100) * (1 # 3))%Q);
         (Ok line, (1 - p * (75 # 100))%Q) ]).
Proof.
  intros H0 H1. split; [apply sortLine_length|].
  intros Hlen. apply restoreLine_dist; auto.
Qed.

Lemma restoreLine_distribution_witness :
  (0 <= 1 # 2)%Q /\ (1 # 2 <= 1)%Q /\
  length [(4, 5, 6); (1, 2, 3)] = length [(1, 2, 3); (4, 5, 6)] /\
  always (fun l => length l = length [(1, 2, 3); (4, 5, 6)])
         (sortLine [(1, 2, 3); (4, 5, 6)]) /\
  (length [(4, 5, 6); (1, 2, 3)] = length [(1, 2, 3); (4, 5, 6)] ->
   exists out0 out1 out2,
     channel_restored 0 [(1, 2, 3); (4, 5, 6)] [(4, 5, 6); (1, 2, 3)] out0 /\
     channel_restored 1 [(1, 2, 3); (4, 5, 6)] [(4, 5, 6); (1, 2, 3)] out1 /\
     channel_restored 2 [(1, 2, 3); (4, 5, 6)] [(4, 5, 6); (1, 2, 3)] out2 /\
     dist_equiv
       (dist (restoreLine (1 # 2) [(1, 2, 3); (4, 5, 6)]
                          [(4, 5, 6); (1, 2, 3)]))
       [ (Ok out0, ((1 # 2) * (75 # 100) * (1 # 3))%Q);
         (Ok out1, ((1 # 2) * (75 # 100) * (1 # 3))%Q);
         (Ok out2, ((1 # 2) * (75 # 100) * (1 # 3))%Q);
         (Ok [(4, 5, 6); (1, 2, 3)], (1 - (1 # 2) * (75 # 100))%Q) ]).
Proof.
  split; [discriminate|]. split; [discriminate|]. split; [reflexivity|].
  apply (restoreLine_distribution (1 # 2) [(1, 2, 3); (4, 5, 6)]
                                  [(4, 5, 6); (1, 2, 3)]); discriminate.
Defined.

(** ** The passes *)


Lemma blockSize_div d blocks :
  0 <= d -> 1 <= blocks -> blockSize d blocks = d / blocks.
Proof. intros Hd Hb. unfold blockSize. apply int_div; lia. Qed.

Lemma blockSize_bounds d blocks :
  0 <= d -> 1 <= blocks ->
  0 <= blockSize d blocks /\ blocks * blockSize d blocks <= d.
Proof.
  intros Hd Hb. rewrite blockSize_div by assumption. split.
  - apply Z.div_pos; lia.
  - apply Z.mul_div_le. lia.
Qed.

Lemma stride_bounds blocks d :
  0 <= d -> 0 <= stride blocks d <= d.
Proof.
  intros Hd. rewrite stride_eq by assumption.
  destruct (blocks >? 1); [|lia].
  split.
  - apply Z.div_pos; lia.
  - apply Z.div_le_upper_bound; lia.
Qed.

Lemma pixSort_total g image startW startH endW endH p :
  always (fun _ => True) (pixSort g image startW startH endW endH p).
Proof. eapply always_mono; [|apply pixSort_dims]. auto. Qed.

(** [glitch] is its loops, run on [glitchInput]. *)
Lemma always_glitch rotate fuel g image blocks rotation
    (P : option canvas -> Prop) :
  1 <= blocks ->
  always (fun r => match r with
                   | Some im =>
                       P (Some (if negb (rotation =? 0)
                                then rotate im (- rotation) (INTERPOLATION g)
                                else im))
                   | None => P None
                   end)
         (tiling (pixSort g) fuel g blocks
                 (blockSize (IMAGE_WIDTH g) blocks)
                 (blockSize (IMAGE_HEIGHT g) blocks)
                 (glitchInput rotate g image blocks rotation)) ->
  always P (glitch rotate fuel g image blocks rotation).
Proof.
  intros Hb H. unfold glitch, truediv.
  destruct (blocks =? 0) eqn:E; [apply Z.eqb_eq in E; lia|].
  cbn [rbind]. apply always_bind.
  eapply always_mono; [|exact H].
  intros [im|] Hr; exact Hr.
Qed.

Lemma glitch_ends rotate g image blocks rotation :
  1 <= blocks -> 0 <= IMAGE_WIDTH g -> 0 <= IMAGE_HEIGHT g ->
  1 <= stride blocks (blockSize (IMAGE_WIDTH g) blocks) ->
  1 <= stride blocks (blockSize (IMAGE_HEIGHT g) blocks) ->
  exists fuel,
    always (fun r => exists out, r = Some out /\
              let im := glitchInput rotate g image blocks rotation in
              rotation = 0 -> width out = width im /\ height out = height im)
           (glitch rotate fuel g image blocks rotation).
Proof.
  intros Hb HW HH Hsw Hsh.
  destruct (blockSize_bounds (IMAGE_WIDTH g) blocks HW Hb) as [Hw0 _].
  destruct (blockSize_bounds (IMAGE_HEIGHT g) blocks HH Hb) as [Hh0 _].
  set (im := glitchInput rotate g image blocks rotation).
  destruct (tiling_total (pixSort g) g blocks
              (blockSize (IMAGE_WIDTH g) blocks)
              (blockSize (IMAGE_HEIGHT g) blocks) Hb
              (fun _ st => width st = width im /\ height st = height im)
              (fun _ _ st => width st = width im /\ height st = height im)
              im) as [fuel Hfuel]; auto.
  - intros ch cw st p _ _ [Hw Hh] _ _.
    eapply always_mono; [|apply pixSort_dims]. simpl. intros a [-> ->]. auto.
  - exists fuel. apply always_glitch; [assumption|].
    eapply always_mono; [|exact Hfuel].
    intros r (st & ch & -> & _ & Hd & _). eexists. split; [reflexivity|].
    cbv zeta. intros Hrot.
    replace (negb (rotation =? 0)) with false by (rewrite Hrot; reflexivity).
    exact Hd.
Qed.

Lemma glitch_never_ends rotate fuel g image blocks rotation :
  1 <= blocks -> 0 <= IMAGE_WIDTH g -> 0 <= IMAGE_HEIGHT g ->
  stride blocks (blockSize (IMAGE_WIDTH g) blocks) = 0 \/
  stride blocks (blockSize (IMAGE_HEIGHT g) blocks) = 0 ->
  always (fun r => r = None) (glitch rotate fuel g image blocks rotation).
Proof.
  intros Hb HW HH Hz.
  destruct (blockSize_bounds (IMAGE_WIDTH g) blocks HW Hb) as [Hw0 Hw1].
  destruct (blockSize_bounds (IMAGE_HEIGHT g) blocks HH Hb) as [Hh0 Hh1].
  apply always_glitch; [assumption|].
  eapply always_mono; [|apply tiling_diverges; auto].
  - intros r ->. reflexivity.
  - intros. apply pixSort_total.
  - nia.
  - nia.
Qed.

(** C10.  For a picture of at least one pixel and [blocks >= 1], the loops
    of [glitch] end (for some fuel, whatever is drawn) if and only if both
    steps are at least 1.  That is the case when [blocks = 1], and when
    [blocks > 1] with blocks of at least 2 pixels along both axes.  When
    [blocks > 1] and a block is 1 pixel wide or high, a step is 0 and the
    loops never end: blocks of at least 1 pixel are not enough. *)
Theorem glitch_terminates_iff (rotate : canvas -> Z -> Z -> canvas)
    (g : globals) (image : canvas) (blocks rotation : Z) :
  1 <= blocks -> 1 <= IMAGE_WIDTH g -> 1 <= IMAGE_HEIGHT g ->
  let wBlock := blockSize (IMAGE_WIDTH g) blocks in
  let hBlock := blockSize (IMAGE_HEIGHT g) blocks in
  ((exists fuel,
      always (fun r => r <> None) (glitch rotate fuel g image blocks rotation))
   <-> 1 <= stride blocks wBlock /\ 1 <= stride blocks hBlock) /\
  (blocks = 1 -> 1 <= stride blocks wBlock /\ 1 <= stride blocks hBlock) /\
  (1 < blocks -> 2 <= wBlock -> 2 <= hBlock ->
   1 <= stride blocks wBlock /\ 1 <= stride blocks hBlock) /\
  (1 < blocks -> wBlock = 1 \/ hBlock = 1 ->
   (stride blocks wBlock = 0 \/ stride blocks hBlock = 0) /\
   forall fuel,
     always (fun r => r = None) (glitch rotate fuel g image blocks rotation)).
Proof.
  intros Hb HW HH wBlock hBlock.
  destruct (blockSize_bounds (IMAGE_WIDTH g) blocks ltac:(lia) Hb) as [Hw0 Hw1].
  destruct (blockSize_bounds (IMAGE_HEIGHT g) blocks ltac:(lia) Hb) as [Hh0 Hh1].
  fold wBlock in Hw0, Hw1. fold hBlock in Hh0, Hh1.
  pose proof (stride_bounds blocks wBlock Hw0) as Hsw.
  pose proof (stride_bounds blocks hBlock Hh0) as Hsh.
  split; [|split; [|split]].
  - split.
    + intros [fuel Hfuel].
      destruct (Z_le_dec 1 (stride blocks wBlock)) as [H1|H1];
        [destruct (Z_le_dec 1 (stride blocks hBlock)) as [H2|H2]; [auto|]|];
        exfalso;
        apply (always_inhabited (glitch rotate fuel g image blocks rotation));
        (eapply always_mono;
         [|apply always_and;
           [exact Hfuel
           |apply glitch_never_ends; [assumption|lia|lia|]]]);
        try (intros a [Ha1 Ha2]; exact (Ha1 Ha2)).
      * right. fold hBlock. lia.
      * left. fold wBlock. lia.
    + intros [H1 H2].
      destruct (glitch_ends rotate g image blocks rotation) as [fuel Hfuel];
        try assumption; try lia.
      exists fuel. eapply always_mono; [|exact Hfuel].
      intros r (out & -> & _). discriminate.
  - intros ->. unfold stride. simpl.
    assert (wBlock = IMAGE_WIDTH g /\ hBlock = IMAGE_HEIGHT g) as [-> ->].
    { unfold wBlock, hBlock. rewrite !blockSize_div by lia.
      now rewrite !Z.div_1_r. }
    lia.
  - intros Hb1 Hw2 Hh2. rewrite !stride_eq by assumption.
    destruct (Z.gtb_spec blocks 1); [|lia].
    split; apply Z.div_le_lower_bound; lia.
  - intros Hb1 Hone.
    assert (Hz : stride blocks wBlock = 0 \/ stride blocks hBlock = 0).
    { rewrite !stride_eq by assumption.
      destruct (Z.gtb_spec blocks 1); [|lia].
      destruct Hone as [-> | ->]; [left|right]; reflexivity. }
    split; [exact Hz|].
    intros fuel. apply glitch_never_ends; auto; lia.
Qed.

Lemma glitch_terminates_iff_witness :
  1 <= 2 /\ 1 <= IMAGE_WIDTH (plain 3 3 2 false) /\
  1 <= IMAGE_HEIGHT (plain 3 3 2 false) /\
  let wBlock := blockSize (IMAGE_WIDTH (plain 3 3 2 false)) 2 in
  let hBlock := blockSize (IMAGE_HEIGHT (plain 3 3 2 false)) 2 in
  ((exists fuel,
      always (fun r => r <> None)
             (glitch (fun im _ _ => im) fuel (plain 3 3 2 false) (blank 3 3) 2 0))
   <-> 1 <= stride 2 wBlock /\ 1 <= stride 2 hBlock) /\
  (2 = 1 -> 1 <= stride 2 wBlock /\ 1 <= stride 2 hBlock) /\
  (1 < 2 -> 2 <= wBlock -> 2 <= hBlock ->
   1 <= stride 2 wBlock /\ 1 <= stride 2 hBlock) /\
  (1 < 2 -> wBlock = 1 \/ hBlock = 1 ->
   (stride 2 wBlock = 0 \/ stride 2 hBlock = 0) /\
   forall fuel,
     always (fun r => r = None)
            (glitch (fun im _ _ => im) fuel (plain 3 3 2 false) (blank 3 3) 2 0)).
Proof.
  split; [lia|]. split; [simpl; lia|]. split; [simpl; lia|].
  apply (glitch_terminates_iff (fun im _ _ => im) (plain 3 3 2 false)
                               (blank 3 3) 2 0); simpl; lia.
Defined.

Lemma cropBox_plain abs_sin abs_cos (g : globals) (im : canvas) (b : Z) :
  FUZZY_EDGES g = false ->
  width im = IMAGE_WIDTH g + 2 * b -> height im = IMAGE_HEIGHT g + 2 * b ->
  cropBox abs_sin abs_cos g im
  = (b, b, IMAGE_WIDTH g + b, IMAGE_HEIGHT g + b).
Proof.
  intros HF Hw Hh. unfold cropBox. rewrite HF, Hw, Hh. cbn [negb].
  assert (H1 : forall d, int ((inject_Z (d + 2 * b) - inject_Z d - 0) / 2) = b).
  { intros d. transitivity (int (inject_Z b)); [|apply int_inject_Z].
    apply int_proper. rewrite inject_Z_plus, inject_Z_mult.
    change (inject_Z 2) with 2%Q. field. }
  assert (H2 : forall d,
             int (inject_Z d + (inject_Z (d + 2 * b) - inject_Z d + 0) / 2)
             = d + b).
  { intros d. transitivity (int (inject_Z (d + b))); [|apply int_inject_Z].
    apply int_proper. rewrite !inject_Z_plus, inject_Z_mult.
    change (inject_Z 2) with 2%Q. field. }
  now rewrite !H1, !H2.
Qed.




(** ** The blocks of a pass *)


Lemma covered_app_l x y log b : covered x y log -> covered x y (log ++ [b]).
Proof. intros H. apply Exists_app. now left. Qed.

Lemma covered_last x y log sW sH eW eH p :
  sH <= x < eH -> sW <= y < eW -> covered x y (log ++ [(sW, sH, eW, eH, p)]).
Proof.
  intros Hx Hy. apply Exists_app. right. constructor. simpl.
  repeat (apply andb_true_iff; split); lia.
Qed.

Lemma lastStart_spec blocks d M :
  1 <= stride blocks d -> 2 * d <= 6 * M ->
  (stride blocks d | lastStart blocks d M) /\
  0 <= lastStart blocks d M /\
  3 * lastStart blocks d M <= 6 * M - 2 * d
  /\ 6 * M - 2 * d < 3 * lastStart blocks d M + 3 * stride blocks d.
Proof.
  intros Hs HN. unfold lastStart. cbv zeta.
  set (s := stride blocks d) in *. set (N := 6 * M - 2 * d).
  assert (HN0 : 0 <= N) by (unfold N; lia).
  pose proof (Z.div_mod N (3 * s) ltac:(lia)) as Hdm.
  pose proof (Z.mod_pos_bound N (3 * s) ltac:(lia)) as Hmod.
  assert (Hq : 0 <= N / (3 * s)) by (apply Z.div_pos; lia).
  split; [apply Z.divide_factor_l|]. split; [nia|]. split; nia.
Qed.

Lemma lastStart_max blocks d M c :
  1 <= stride blocks d -> 2 * d <= 6 * M ->
  (stride blocks d | c) -> 3 * c + 2 * d <= 6 * M -> c <= lastStart blocks d M.
Proof.
  intros Hs HN [k ->] Hc.
  destruct (lastStart_spec blocks d M Hs HN) as ([q Hq] & H0 & H1 & H2).
  rewrite Hq in *. set (s := stride blocks d) in *.
  assert (k < q + 1) by nia. nia.
Qed.

Lemma lastStart_unique blocks d M c :
  1 <= stride blocks d -> 2 * d <= 6 * M ->
  (stride blocks d | c) -> 3 * c + 2 * d <= 6 * M ->
  6 * M < 3 * (c + stride blocks d) + 2 * d ->
  c = lastStart blocks d M.
Proof.
  intros Hs HN Hdiv Hc Hn.
  pose proof (lastStart_max blocks d M c Hs HN Hdiv Hc) as Hle.
  destruct (lastStart_spec blocks d M Hs HN) as ([q Hq] & H0 & H1 & H2).
  destruct Hdiv as [k Hk]. rewrite Hq, Hk in *.
  set (s := stride blocks d) in *.
  assert (q < k + 1) by nia. nia.
Qed.

(** A positive multiple of the step is at least the step. *)
Lemma multiple_ge s c : 1 <= s -> (s | c) -> 0 < c -> s <= c.
Proof. intros Hs [k ->] Hc. assert (0 < k) by nia. nia. Qed.

Lemma blockTrace_union (g : globals) (blocks wBlock hBlock : Z) :
  1 <= blocks -> 0 <= wBlock -> 0 <= hBlock ->
  1 <= stride blocks wBlock -> 1 <= stride blocks hBlock ->
  let M := Z.max (IMAGE_WIDTH g) (IMAGE_HEIGHT g) in
  2 * wBlock <= 6 * M -> 2 * hBlock <= 6 * M ->
  exists fuel,
    always (fun r => exists log, r = Some log /\
              forall x y,
                covered x y log <->
                (0 <= x < reach blocks wBlock M /\
                 0 <= y < reach blocks hBlock M))
           (blockTrace fuel g blocks wBlock hBlock).
Proof.
  intros Hb Hw Hh Hsw Hsh M HNw HNh.
  pose proof (stride_bounds blocks wBlock Hw) as Bw.
  pose proof (stride_bounds blocks hBlock Hh) as Bh.
  set (sw := stride blocks wBlock) in *. set (sh := stride blocks hBlock) in *.
  set (rW := reach blocks wBlock M). set (rH := reach blocks hBlock M).
  destruct (tiling_total
              (fun log startW startH endW endH p =>
                 Ret (log ++ [(startW, startH, endW, endH, p)]))
              g blocks wBlock hBlock Hb
              (fun ch log =>
                 (sh | ch) /\
                 (ch = 0 \/ 3 * (ch - sh) + 2 * hBlock <= 6 * M) /\
                 Forall (block_shape g blocks wBlock hBlock) log /\
                 (forall x y, 0 <= x < rW -> 0 <= y -> 0 < ch ->
                              y < ch - sh + hBlock -> covered x y log))
              (fun ch cw log =>
                 (sh | ch) /\ (sw | cw) /\
                 3 * ch + 2 * hBlock <= 6 * M /\
                 (cw = 0 \/ 3 * (cw - sw) + 2 * wBlock <= 6 * M) /\
                 Forall (block_shape g blocks wBlock hBlock) log /\
                 (forall x y, 0 <= x < rW -> 0 <= y -> 0 < ch ->
                              y < ch - sh + hBlock -> covered x y log) /\
                 (forall x y, 0 <= x -> 0 < cw -> x < cw - sw + wBlock ->
                              ch <= y < ch + hBlock -> covered x y log))
              []) as [fuel Hfuel]; try assumption.
  - split; [apply Z.divide_0_r|]. split; [now left|].
    split; [constructor|]. intros x y _ _ H. lia.
  - intros ch log Hch (Hd & Hp & Hs & Hc) Hcond.
    split; [exact Hd|]. split; [apply Z.divide_0_r|]. split; [exact Hcond|].
    split; [now left|]. split; [exact Hs|]. split; [exact Hc|].
    intros x y _ H. lia.
  - intros ch cw log p Hch Hcw (Hd & Hd' & Hcond & Hp & Hs & Hc & Hc') Hcond' _.
    simpl.
    split; [exact Hd|].
    split; [apply Z.divide_add_r; [exact Hd'|apply Z.divide_refl]|].
    split; [exact Hcond|].
    split; [right; fold M in Hcond'; lia|].
    split; [|split].
    + apply Forall_app. split; [exact Hs|].
      constructor; [|constructor]. unfold block_shape. fold M.
      repeat (split; [first [reflexivity|assumption]|]). assumption.
    + intros x y Hx Hy Hpos Hlt. apply covered_app_l. now apply Hc.
    + intros x y Hx _ Hlt Hy.
      destruct (Z_lt_dec 0 cw) as [Hcw0|Hcw0].
      * destruct (Z_lt_dec x (cw - sw + wBlock)) as [Hold|Hnew].
        -- apply covered_app_l. now apply Hc'.
        -- apply covered_last; lia.
      * apply covered_last; lia.
  - intros ch cw log Hch Hcw (Hd & Hd' & Hcond & Hp & Hs & Hc & Hc') Hcond'.
    fold M in Hcond'.
    assert (Hcw0 : 0 < cw) by lia.
    assert (Hprev : 3 * (cw - sw) + 2 * wBlock <= 6 * M) by lia.
    pose proof (multiple_ge sw cw Hsw Hd' Hcw0) as Hge.
    assert (Hlast : cw - sw = lastStart blocks wBlock M).
    { apply lastStart_unique; try assumption.
      - apply Z.divide_sub_r; [exact Hd'|apply Z.divide_refl].
      - fold sw. lia. }
    split; [apply Z.divide_add_r; [exact Hd|apply Z.divide_refl]|].
    split; [right; lia|]. split; [exact Hs|].
    intros x y Hx Hy _ Hlt.
    destruct (Z_lt_dec y ch) as [Hold|Hnew].
    + apply Hc; lia.
    + apply Hc'; try lia. unfold rW, reach in Hx. rewrite <- Hlast in Hx. lia.
  - exists fuel. unfold blockTrace. eapply always_mono; [|exact Hfuel].
    intros r (log & ch & -> & Hch & (Hd & Hp & Hs & Hc) & Hcond).
    fold M in Hcond.
    exists log. split; [reflexivity|]. intros x y. split.
    + intros Hcov. apply Exists_exists in Hcov as (b & Hb' & Hin).
      rewrite Forall_forall in Hs. specialize (Hs b Hb').
      destruct b as [[[[sW sH] eW] eH] p]. unfold block_shape in Hs.
      fold M in Hs. destruct Hs as (-> & -> & H0 & H0' & Hdh & Hdw & Hbh & Hbw).
      pose proof (lastStart_max blocks hBlock M sW Hsh HNh Hdh Hbh).
      pose proof (lastStart_max blocks wBlock M sH Hsw HNw Hdw Hbw).
      unfold in_block in Hin.
      apply andb_true_iff in Hin as [Hin Hi4].
      apply andb_true_iff in Hin as [Hin Hi3].
      apply andb_true_iff in Hin as [Hi1 Hi2].
      apply Z.leb_le in Hi1, Hi3. apply Z.ltb_lt in Hi2, Hi4.
      unfold rW, rH, reach. lia.
    + intros [Hx Hy].
      assert (Hch0 : 0 < ch) by lia.
      assert (Hprev : 3 * (ch - sh) + 2 * hBlock <= 6 * M) by lia.
      pose proof (multiple_ge sh ch Hsh Hd Hch0) as Hge.
      assert (Hlast : ch - sh = lastStart blocks hBlock M).
      { apply lastStart_unique; try assumption.
        - apply Z.divide_sub_r; [exact Hd|apply Z.divide_refl].
        - fold sh. lia. }
      apply Hc; try lia. unfold rH, reach in Hy. rewrite <- Hlast in Hy. lia.
Qed.

Lemma reach_bound blocks d M :
  1 <= stride blocks d -> 2 * d <= 6 * M ->
  6 * M + d - 3 * stride blocks d < 3 * reach blocks d M.
Proof.
  intros Hs HN. unfold reach.
  destruct (lastStart_spec blocks d M Hs HN) as (_ & _ & _ & H). lia.
Qed.

Lemma covers_canvas_iff (c : canvas) (log : list block) (rW rH : Z) :
  1 <= width c -> 1 <= height c ->
  (forall x y, covered x y log <-> 0 <= x < rW /\ 0 <= y < rH) ->
  (covers_canvas c log <-> width c <= rW /\ height c <= rH).
Proof.
  intros Hw Hh Hcov. unfold covers_canvas. split.
  - intros Hall.
    assert (Hin : inside c (width c - 1, height c - 1) = true).
    { unfold inside. simpl. repeat (apply andb_true_iff; split); lia. }
    apply Hall, Hcov in Hin. lia.
  - intros [Hw' Hh'] x y Hin. apply Hcov.
    unfold inside in Hin. simpl in Hin.
    apply andb_true_iff in Hin as [Hin Hy2].
    apply andb_true_iff in Hin as [Hin Hy1].
    apply andb_true_iff in Hin as [Hx1 Hx2]. lia.
Qed.

(** C5, amended.  For [blocks >= 1] and steps of at least one pixel along
    both axes, the loops end and the union of their blocks is the rectangle
    [[0, reachW) x [0, reachH)], where [reachW] is the end of the last
    block of a row, [lastStart + wBlock], and [reachH] the same along the
    other axis.  So the blocks cover a picture if and only if it is at most
    [reachW] wide and [reachH] high; [3 * reachW] is more than
    [6 * max(W, H) + wBlock - 3 * step].  For [blocks >= 3] the padded
    picture is always covered. *)
Theorem tiling_covers (g : globals) (blocks : Z) (image : canvas) :
  1 <= blocks -> 1 <= IMAGE_WIDTH g -> 1 <= IMAGE_HEIGHT g ->
  width image = IMAGE_WIDTH g -> height image = IMAGE_HEIGHT g ->
  let wBlock := blockSize (IMAGE_WIDTH g) blocks in
  let hBlock := blockSize (IMAGE_HEIGHT g) blocks in
  let M := Z.max (IMAGE_WIDTH g) (IMAGE_HEIGHT g) in
  1 <= stride blocks wBlock -> 1 <= stride blocks hBlock ->
  let reachW := reach blocks wBlock M in
  let reachH := reach blocks hBlock M in
  (exists fuel,
     always (fun r => exists log, r = Some log /\
               (forall x y,
                  covered x y log <-> 0 <= x < reachW /\ 0 <= y < reachH) /\
               (forall c : canvas, 1 <= width c -> 1 <= height c ->
                  (covers_canvas c log <->
                   width c <= reachW /\ height c <= reachH)) /\
               (covers_canvas (expand image (border g blocks)) log <->
                IMAGE_WIDTH g + 2 * border g blocks <= reachW /\
                IMAGE_HEIGHT g + 2 * border g blocks <= reachH) /\
               (3 <= blocks ->
                covers_canvas (expand image (border g blocks)) log))
            (blockTrace fuel g blocks wBlock hBlock)) /\
  6 * M + wBlock - 3 * stride blocks wBlock < 3 * reachW /\
  6 * M + hBlock - 3 * stride blocks hBlock < 3 * reachH /\
  (2 <= blocks -> 6 * M - wBlock < 3 * reachW /\ 6 * M - hBlock < 3 * reachH) /\
  (3 <= blocks ->
   M + 2 * border g blocks <= reachW /\ M + 2 * border g blocks <= reachH).
Proof.
  intros Hb HW HH Hw Hh wBlock hBlock M Hsw Hsh reachW reachH.
  destruct (blockSize_bounds (IMAGE_WIDTH g) blocks ltac:(lia) ltac:(lia))
    as [Hw0 Hw1].
  destruct (blockSize_bounds (IMAGE_HEIGHT g) blocks ltac:(lia) ltac:(lia))
    as [Hh0 Hh1].
  fold wBlock in Hw0, Hw1. fold hBlock in Hh0, Hh1.
  assert (HwM : wBlock <= M) by nia.
  assert (HhM : hBlock <= M) by nia.
  assert (Hbord : border g blocks = Z.max wBlock hBlock).
  { unfold border. fold wBlock hBlock. destruct (Z.geb_spec wBlock hBlock); lia. }
  pose proof (reach_bound blocks wBlock M Hsw ltac:(lia)) as HrW.
  pose proof (reach_bound blocks hBlock M Hsh ltac:(lia)) as HrH.
  fold reachW in HrW. fold reachH in HrH.
  assert (Hstep : forall d, 0 <= d -> 2 <= blocks -> 3 * stride blocks d <= 2 * d).
  { intros d Hd H2. rewrite stride_eq by assumption.
    destruct (Z.gtb_spec blocks 1); [|lia].
    pose proof (Z.mul_div_le (d * 2) 3 ltac:(lia)). lia. }
  assert (Hthree : 3 <= blocks ->
    M + 2 * border g blocks <= reachW /\ M + 2 * border g blocks <= reachH).
  { intros H3.
    pose proof (Hstep wBlock Hw0 ltac:(lia)).
    pose proof (Hstep hBlock Hh0 ltac:(lia)).
    assert (3 * wBlock <= M) by nia.
    assert (3 * hBlock <= M) by nia.
    lia. }
  split; [|split; [exact HrW|split; [exact HrH|split; [|exact Hthree]]]].
  - destruct (blockTrace_union g blocks wBlock hBlock) as [fuel Hfuel];
      try assumption; try (fold M; lia).
    fold M reachW reachH in Hfuel.
    exists fuel. eapply always_mono; [|exact Hfuel].
    intros r (log & -> & Hlog). exists log. split; [reflexivity|].
    split; [exact Hlog|].
    assert (Hpad : covers_canvas (expand image (border g blocks)) log <->
                   IMAGE_WIDTH g + 2 * border g blocks <= reachW /\
                   IMAGE_HEIGHT g + 2 * border g blocks <= reachH).
    { rewrite <- Hw, <- Hh.
      apply (covers_canvas_iff (expand image (border g blocks)) log);
        [simpl; lia|simpl; lia|exact Hlog]. }
    split; [|split; [exact Hpad|]].
    + intros c Hc1 Hc2. now apply covers_canvas_iff.
    + intros H3. apply Hpad. specialize (Hthree H3). lia.
  - intros H2.
    pose proof (Hstep wBlock Hw0 H2). pose proof (Hstep hBlock Hh0 H2). lia.
Qed.

Lemma tiling_covers_witness :
  let g := plain 6 6 2 false in
  let image := blank 6 6 in
  let wBlock := blockSize (IMAGE_WIDTH g) 2 in
  let hBlock := blockSize (IMAGE_HEIGHT g) 2 in
  let M := Z.max (IMAGE_WIDTH g) (IMAGE_HEIGHT g) in
  (1 <= 2 /\ 1 <= IMAGE_WIDTH g /\ 1 <= IMAGE_HEIGHT g /\
   width image = IMAGE_WIDTH g /\ height image = IMAGE_HEIGHT g /\
   1 <= stride 2 wBlock /\ 1 <= stride 2 hBlock) /\
  reach 2 wBlock M = 13 /\ reach 2 hBlock M = 13 /\
  width (expand image (border g 2)) = 12 /\
  exists fuel,
    always (fun r => exists log, r = Some log /\
              (forall x y, covered x y log <-> 0 <= x < 13 /\ 0 <= y < 13) /\
              covers_canvas (expand image (border g 2)) log)
           (blockTrace fuel g 2 wBlock hBlock).
Proof.
  intros g image wBlock hBlock M.
  split; [repeat (split; [first [reflexivity | vm_compute; discriminate]|]);
          vm_compute; discriminate|].
  split; [reflexivity|]. split; [reflexivity|]. split; [reflexivity|].
  destruct (tiling_covers g 2 image) as [[fuel Hfuel] _];
    try first [reflexivity | vm_compute; discriminate].
  exists fuel. eapply always_mono; [|exact Hfuel].
  intros r (log & -> & Hcov & _ & Hpad & _). exists log.
  split; [reflexivity|]. split; [exact Hcov|].
  apply Hpad. split; vm_compute; discriminate.
Defined.

(** C5, as stated, fails for [blocks = 1] and for [blocks = 2]: on a 3 x 3
    picture with one block per axis the four blocks end at column and row
    6 of the 9 x 9 padded picture, whose pixel [(8, 8)] is in no block; on
    a 14 x 14 picture with two blocks per axis the blocks end at 27, and
    the pixel [(27, 27)] of the 28 x 28 padded picture is in no block. *)
Lemma tiling_covers_counterexample :
  ~ always (fun r => forall log, r = Some log ->
              covers_canvas (expand (blank 3 3) (border (plain 3 3 1 false) 1))
                            log)
           (blockTrace 3 (plain 3 3 1 false) 1
                       (blockSize 3 1) (blockSize 3 1)) /\
  ~ always (fun r => forall log, r = Some log ->
              covers_canvas
                (expand (blank 14 14) (border (plain 14 14 2 false) 2)) log)
           (blockTrace 7 (plain 14 14 2 false) 2
                       (blockSize 14 2) (blockSize 14 2)).
Proof.
  split.
  - intros H.
    eapply (always_run _ _ (repeat (DrawRange 0) 4)) in H;
      [|vm_compute; reflexivity].
    destruct H as (a & Ha & Hcov). injection Ha as <-.
    specialize (Hcov _ eq_refl 8 8 eq_refl).
    apply Exists_exists in Hcov as (b & Hb & Hin).
    apply list_elem_of_In in Hb. simpl in Hb.
    repeat (destruct Hb as [<-|Hb]; [vm_compute in Hin; discriminate Hin|]).
    destruct Hb.
  - intros H.
    eapply (always_run _ _ (repeat (DrawRange 0) 36)) in H;
      [|vm_compute; reflexivity].
    destruct H as (a & Ha & Hcov). injection Ha as <-.
    specialize (Hcov _ eq_refl 27 27 eq_refl).
    apply Exists_exists in Hcov as (b & Hb & Hin).
    apply list_elem_of_In in Hb. simpl in Hb.
    repeat (destruct Hb as [<-|Hb]; [vm_compute in Hin; discriminate Hin|]).
    destruct Hb.
Qed.

(** C8.  The range [[blocks - 4 + INTENSITY, blocks - 1 + INTENSITY)] has
    three elements, whatever [blocks] and [INTENSITY] are.  For
    [blocks >= 1], the probability of a block is
    [1 - (blocks^2 / (blocks + 1)^2) ^ k] with [k] uniform in that range,
    and every block of a pass gets such a probability. *)
Theorem blockProbability_distribution (g : globals) (blocks : Z) :
  let lo := blocks - 4 + INTENSITY g in
  let hi := blocks - 1 + INTENSITY g in
  range lo hi = [lo; lo + 1; lo + 2] /\
  (1 <= blocks ->
   dist_equiv (dist (blockProbability g blocks))
     [ (Ok (1 - blockRatio blocks ^ lo)%Q, 1 # 3);
       (Ok (1 - blockRatio blocks ^ (lo + 1))%Q, 1 # 3);
       (Ok (1 - blockRatio blocks ^ (lo + 2))%Q, 1 # 3) ] /\
   forall fuel wBlock hBlock,
     always (fun r => forall log, r = Some log ->
               Forall (fun b : block => block_p g blocks b.2) log)
            (blockTrace fuel g blocks wBlock hBlock)).
Proof.
  intros lo hi. split.
  - unfold hi. replace (blocks - 1 + INTENSITY g) with (lo + 3) by (unfold lo; lia).
    apply range_three.
  - intros Hb. split; [now apply blockProbability_dist|].
    intros fuel wBlock hBlock. unfold blockTrace.
    apply (tiling_partial _ g blocks wBlock hBlock Hb
             (fun log => Forall (fun b : block => block_p g blocks b.2) log)).
    + intros log sW sH eW eH p Hlog Hp. simpl.
      apply Forall_app. split; [exact Hlog|]. repeat constructor. exact Hp.
    + constructor.
Qed.

Lemma blockProbability_distribution_witness :
  let g := plain 100 100 9 false in
  let lo := 9 - 4 + INTENSITY g in
  let hi := 9 - 1 + INTENSITY g in
  1 <= 9 /\
  range lo hi = [lo; lo + 1; lo + 2] /\
  dist_equiv (dist (blockProbability g 9))
    [ (Ok (1 - blockRatio 9 ^ lo)%Q, 1 # 3);
      (Ok (1 - blockRatio 9 ^ (lo + 1))%Q, 1 # 3);
      (Ok (1 - blockRatio 9 ^ (lo + 2))%Q, 1 # 3) ] /\
  forall fuel wBlock hBlock,
    always (fun r => forall log, r = Some log ->
              Forall (fun b : block => block_p g 9 b.2) log)
           (blockTrace fuel g 9 wBlock hBlock).
Proof.
  intros g lo hi.
  destruct (blockProbability_distribution g 9) as [Hr Hd].
  split; [lia|]. split; [exact Hr|]. apply Hd. lia.
Defined.

(** * Further properties of the code *)

(** ** The lines of [pixSort] *)


Lemma range_nil lo hi : hi <= lo -> range lo hi = [].
Proof.
  intros H. unfold range. now replace (Z.to_nat (hi - lo)) with 0%nat by lia.
Qed.

Lemma range_cons lo hi : lo < hi -> range lo hi = lo :: range (lo + 1) hi.
Proof.
  intros H. unfold range.
  replace (Z.to_nat (hi - lo)) with (S (Z.to_nat (hi - (lo + 1)))) by lia.
  simpl. f_equal; [lia|].
  rewrite <- seq_shift, map_map. apply map_ext. intros i. lia.
Qed.

Lemma split_segment {A} (l : list A) (lo hi : nat) :
  (lo <= hi)%nat ->
  l = take lo l ++ segment lo hi l ++ drop hi l.
Proof.
  intros H. unfold segment.
  rewrite <- (take_drop lo l) at 1. f_equal.
  rewrite <- (take_drop (hi - lo) (drop lo l)) at 1. f_equal.
  rewrite drop_drop. f_equal. lia.
Qed.

Lemma partialSort_out_perm (ls : list pixel) a b r :
  0 <= a <= len ls - 2 -> a + 1 <= b <= len ls - 1 ->
  Permutation (partialSort_out ls a b r) ls.
Proof.
  intros Ha Hb. unfold partialSort_out.
  rewrite !slice_in_range, !slice_from_in_range by lia.
  assert (Hrev : forall l, Permutation (reversed (sorted l)) l).
  { intros l. unfold reversed. rewrite <- Permutation_rev. apply sorted_perm. }
  destruct r.
  - rewrite sorted_perm. unfold segment at 1. simpl. rewrite Nat.sub_0_r.
    rewrite <- split_segment by lia. reflexivity.
  - rewrite sorted_perm. unfold segment. simpl. rewrite Nat.sub_0_r.
    now rewrite take_drop.
  - rewrite Hrev. unfold segment at 1. simpl. rewrite Nat.sub_0_r.
    rewrite <- split_segment by lia. reflexivity.
  - rewrite Hrev. unfold segment. simpl. rewrite Nat.sub_0_r.
    now rewrite take_drop.
Qed.

Lemma sortLine_perm (line : list pixel) :
  always (fun l => Permutation l line) (sortLine line).
Proof.
  destruct (Z.lt_ge_cases (len line) 2) as [Hs|Hl].
  - destruct (partialSort_short line Hs) as [_ ->]. simpl. reflexivity.
  - unfold sortLine. apply always_try_except. unfold partialSort.
    apply always_bind, always_randrange; [lia|]. intros a Ha.
    apply always_bind, always_randrange; [lia|]. intros b Hb.
    intros [|] [|]; simpl.
    + apply (partialSort_out_perm line a b AscMiddle); lia.
    + apply (partialSort_out_perm line a b AscBeginning); lia.
    + apply (partialSort_out_perm line a b DescMiddle); lia.
    + apply (partialSort_out_perm line a b DescEnd); lia.
Qed.

(** X1.  Whatever the length of the line and whatever is drawn, the sort
    step of [pixSort] returns a permutation of the line: no pixel is lost,
    made up or doubled. *)
Theorem sortLine_permutation (line : list pixel) :
  always (fun l => Permutation l line) (sortLine line).
Proof. apply sortLine_perm. Qed.

Lemma readLine_loop (image : canvas) (y : Z) :
  forall (m : nat) (lo : Z) (acc : list pixel),
    for_in (range lo (lo + Z.of_nat m))
      (fun x line =>
         match getpixel image (y, x) with
         | Some px => Ret (Continue (line ++ [px]))
         | None => Ret (Break line)
         end) acc
    = Ret (acc ++ map (fun x => pixels image y x)
                      (range lo (readStop image y lo (lo + Z.of_nat m)))).
Proof.
  induction m as [|m IH]; intros lo acc.
  - rewrite Z.add_0_r. rewrite range_nil by lia. simpl.
    rewrite range_nil; [now rewrite app_nil_r|].
    unfold readStop. destruct (_ && _); lia.
  - rewrite range_cons by lia. cbn [for_in].
    destruct (getpixel image (y, lo)) as [px|] eqn:Eg; cbn [rbind].
    + unfold getpixel, inside in Eg. cbn [fst snd] in Eg.
      destruct ((0 <=? y) && (y <? width image)) eqn:Ey; [|discriminate Eg].
      destruct (0 <=? lo) eqn:E0; [|discriminate Eg].
      destruct (lo <? height image) eqn:E1; [|discriminate Eg].
      cbn [andb] in Eg. injection Eg as <-.
      replace (lo + Z.of_nat (S m)) with (lo + 1 + Z.of_nat m) by lia.
      rewrite IH. unfold readStop. rewrite Ey, E0.
      replace (0 <=? lo + 1) with true by lia. cbn [andb].
      rewrite (range_cons lo) by lia. simpl.
      now rewrite <- app_assoc.
    + rewrite range_nil; [simpl; now rewrite app_nil_r|].
      unfold getpixel, inside in Eg. cbn [fst snd] in Eg.
      unfold readStop.
      destruct ((0 <=? y) && (y <? width image) && (0 <=? lo)) eqn:Ey;
        [|lia].
      destruct (lo <? height image) eqn:E1; [discriminate Eg|]. lia.
Qed.

Lemma readLine_eq (image : canvas) (y startW endW : Z) :
  readLine image y startW endW
  = Ret (map (fun x => pixels image y x)
             (range startW (readStop image y startW endW))).
Proof.
  unfold readLine.
  destruct (Z.le_gt_cases endW startW) as [Hle|Hgt].
  - rewrite range_nil by assumption. simpl.
    rewrite range_nil; [reflexivity|].
    unfold readStop. destruct (_ && _); lia.
  - replace endW with (startW + Z.of_nat (Z.to_nat (endW - startW))) by lia.
    rewrite readLine_loop. reflexivity.
Qed.

(** X2.  Reading a line from a row [y >= 0] and a column [startW >= 0]
    never fails and draws nothing: the line is the pixels [(y, startW)],
    [(y, startW + 1)], ... up to [endW] or up to the edge of the picture;
    it is empty when the row [y] is not in the picture. *)
Theorem readLine_prefix (image : canvas) (y startW endW : Z) :
  0 <= y -> 0 <= startW ->
  readLine image y startW endW
  = Ret (map (fun x => pixels image y x)
             (range startW
                    (if y <? width image
                     then Z.min endW (height image)
                     else startW))).
Proof.
  intros Hy Hs. rewrite readLine_eq. unfold readStop.
  replace (0 <=? y) with true by lia.
  replace (0 <=? startW) with true by lia.
  now rewrite andb_true_r.
Qed.

Lemma readLine_prefix_witness :
  0 <= 1 /\ 0 <= 1 /\
  readLine (blank 3 3) 1 1 5
  = Ret (map (fun x => pixels (blank 3 3) 1 x) (range 1 3)).
Proof.
  split; [lia|]. split; [lia|].
  apply (readLine_prefix (blank 3 3) 1 1 5); lia.
Defined.

Lemma readLine_length (image : canvas) (y startW endW : Z) :
  always (fun line => Z.of_nat (length line) <= Z.max 0 (endW - startW))
         (readLine image y startW endW).
Proof.
  rewrite readLine_eq. simpl. rewrite length_map, range_length.
  unfold readStop. destruct (_ && _); lia.
Qed.

(** X3.  For a block that starts at a row [startH >= 0] and a column
    [startW >= 0], [pixSort] keeps the size of the picture, and it only
    writes next to its block: a pixel [(cx, cy)] can change only for
    [startH + 1 <= cx <= endH] ([endH + 1] with dithering) and
    [startW <= cy < endW]. *)
Theorem pixSort_frame (g : globals) (image : canvas)
    (startW startH endW endH : Z) (p : Q) :
  0 <= startH -> 0 <= startW ->
  always (fun image' =>
            width image' = width image /\ height image' = height image /\
            forall cx cy,
              ~ in_reach g startW startH endW endH cx cy ->
              pixels image' cx cy = pixels image cx cy)
         (pixSort g image startW startH endW endH p).
Proof.
  intros _ _. unfold pixSort.
  apply (always_for_in
           (fun _ image' =>
              width image' = width image /\ height image' = height image /\
              forall cx cy,
                ~ in_reach g startW startH endW endH cx cy ->
                pixels image' cx cy = pixels image cx cy)); auto.
  intros done y rest im' Hsplit (Hw & Hh & Hfr).
  assert (Hy : startH <= y < endH).
  { apply range_In. rewrite Hsplit. apply in_or_app. right. now left. }
  apply always_bind, always_probability; [|simpl; auto].
  apply always_bind. eapply always_mono; [|apply readLine_length].
  intros line Hline.
  apply always_bind. eapply always_mono; [|apply sortLine_length].
  intros line' Hl'.
  apply always_bind. eapply always_mono; [|apply restoreLine_length; auto].
  intros line'' Hl''.
  apply always_bind. eapply always_mono; [|apply writeBack_written].
  intros im'' (offs & Hlen & Hw' & Hh' & Hwr & Hun & _). simpl.
  split; [congruence|]. split; [congruence|].
  intros cx cy Hout. rewrite Hun; [now apply Hfr|].
  intros i off Hi [-> ->]. apply Hout.
  destruct (Hwr i off Hi) as (Ha & _ & _).
  apply lookup_lt_Some in Hi.
  unfold in_reach, offset_allowed in *.
  destruct (DITHER g); destruct Ha as [->|[Hd ->]]; try discriminate Hd; lia.
Qed.

Lemma pixSort_frame_witness :
  0 <= 0 /\ 0 <= 0 /\
  always (fun image' =>
            width image' = 3 /\ height image' = 3 /\
            forall cx cy,
              ~ in_reach (plain 3 3 1 true) 0 0 3 2 cx cy ->
              pixels image' cx cy = pixels (blank 3 3) cx cy)
         (pixSort (plain 3 3 1 true) (blank 3 3) 0 0 3 2 1).
Proof.
  split; [lia|]. split; [lia|].
  apply (pixSort_frame (plain 3 3 1 true) (blank 3 3) 0 0 3 2 1); lia.
Defined.

Lemma restoreLine_uniform (c : pixel) (p : Q) (orig line : list pixel) :
  length orig = length line ->
  Forall (fun px => px = c) orig -> Forall (fun px => px = c) line ->
  always (Forall (fun px => px = c)) (restoreLine p orig line).
Proof.
  intros Hlen Ho Hl. unfold restoreLine.
  apply always_bind, always_probability; [|exact Hl].
  apply always_bind, always_randrange; [lia|]. intros k Hk.
  destruct (restoreChannel_spec k orig line Hk Hlen) as (out & -> & Hlo & Hall).
  simpl. apply Forall_lookup. intros i r Hr.
  destruct (lookup_lt_is_Some_2 line i) as [s Hs].
  { rewrite <- Hlo. now apply lookup_lt_Some in Hr. }
  destruct (lookup_lt_is_Some_2 orig i) as [o Hori].
  { rewrite Hlen. now apply lookup_lt_Some in Hs. }
  destruct (Hall i o s Hori Hs) as (r' & Hr' & H1 & H2).
  assert (r' = r) by congruence. subst r'.
  rewrite Forall_lookup in Ho, Hl.
  rewrite (Ho i o Hori) in H1. rewrite (Hl i s Hs) in H2.
  apply pixel_channels. intros c' Hc'.
  destruct (decide (c' = k)) as [->|Hne]; auto.
Qed.

Lemma pixSort_uniform (g : globals) (image : canvas) (c : pixel)
    (startW startH endW endH : Z) (p : Q) :
  (forall x y, pixels image x y = c) ->
  always (fun image' =>
            width image' = width image /\ height image' = height image /\
            forall x y, pixels image' x y = c)
         (pixSort g image startW startH endW endH p).
Proof.
  intros Hc. unfold pixSort.
  apply (always_for_in
           (fun _ image' =>
              width image' = width image /\ height image' = height image /\
              forall x y, pixels image' x y = c)); auto.
  intros done y rest im' _ (Hw & Hh & Hu).
  apply always_bind, always_probability; [|simpl; auto].
  rewrite readLine_eq. cbn [rbind].
  set (line := map (fun x => pixels im' y x) _).
  assert (Hline : Forall (fun px => px = c) line).
  { apply Forall_forall. intros px Hpx. apply list_elem_of_In in Hpx.
    apply in_map_iff in Hpx as (x & <- & _). apply Hu. }
  apply always_bind.
  eapply always_mono;
    [|apply always_and; [apply sortLine_length|apply sortLine_perm]].
  intros line' [Hl' Hp'].
  assert (Hline' : Forall (fun px => px = c) line').
  { eapply Permutation_Forall; [symmetry; exact Hp'|exact Hline]. }
  apply always_bind.
  eapply always_mono; [|apply (restoreLine_uniform c); auto].
  intros line'' Hline''.
  apply always_bind. eapply always_mono; [|apply writeBack_written].
  intros im'' (offs & Hlen & Hw' & Hh' & Hwr & Hun & _). simpl.
  split; [congruence|]. split; [congruence|].
  intros x y0.
  destruct (write_target offs y startW x y0) as [(i & off & Hi & -> & ->)|Hno].
  - destruct (Hwr i off Hi) as (_ & _ & Hl).
    rewrite Forall_lookup in Hline''. exact (Hline'' i _ Hl).
  - rewrite Hun by exact Hno. apply Hu.
Qed.

(** ** The probability of a block *)


(** X4.  With a probability [p <= 0], [pixSort] returns the picture as it
    got it, and it uses one draw of [random()] for each line of the
    block. *)
Theorem pixSort_skips (g : globals) (image : canvas)
    (startW startH endW endH : Z) (p : Q) (rs : list Q) (rest : list draw) :
  (p <= 0)%Q -> Forall unit_draw rs ->
  length rs = length (range startH endH) ->
  run (pixSort g image startW startH endW endH p) (map DrawRandom rs ++ rest)
  = Some (Ok image, rest).
Proof.
  intros Hp. unfold pixSort. generalize (range startH endH) as ys.
  intros ys. revert rs. induction ys as [|y ys IH]; intros rs Hrs Hlen.
  - destruct rs; [reflexivity|discriminate Hlen].
  - destruct rs as [|r rs]; [discriminate Hlen|].
    apply Forall_cons in Hrs as [[H0 H1] Hrs].
    simpl in Hlen. injection Hlen as Hlen.
    cbn [for_in rbind probability map app run].
    assert (E0 : Qle_bool 0 r = true) by now apply Qle_bool_iff.
    assert (E1 : Qle_bool 1 r = false).
    { apply not_true_is_false. intros H. apply Qle_bool_iff in H.
      apply (Qlt_irrefl r). eapply Qlt_le_trans; eauto. }
    assert (Ep : Qle_bool p r = true).
    { apply Qle_bool_iff. eapply Qle_trans; eauto. }
    rewrite E0, E1, Ep. cbn [andb negb rbind]. now apply IH.
Qed.

Lemma pixSort_skips_witness :
  (-1 <= 0)%Q /\ Forall unit_draw [0%Q; (1 # 2)%Q] /\
  length [0%Q; (1 # 2)%Q] = length (range 0 2) /\
  run (pixSort (plain 3 3 1 false) (blank 3 3) 0 0 3 2 (-1))
      (map DrawRandom [0%Q; (1 # 2)%Q] ++ [DrawRange 5])
  = Some (Ok (blank 3 3), [DrawRange 5]).
Proof.
  assert (H1 : (-1 <= 0)%Q) by discriminate.
  assert (H2 : Forall unit_draw [0%Q; (1 # 2)%Q]).
  { repeat constructor; discriminate. }
  split; [exact H1|]. split; [exact H2|]. split; [reflexivity|].
  apply (pixSort_skips (plain 3 3 1 false) (blank 3 3) 0 0 3 2 (-1)
                       [0%Q; (1 # 2)%Q] [DrawRange 5] H1 H2).
  reflexivity.
Defined.

Lemma blockRatio_bounds blocks :
  1 <= blocks -> (0 < blockRatio blocks)%Q /\ (blockRatio blocks < 1)%Q.
Proof.
  intros Hb. unfold blockRatio.
  assert (H1 : 0 < blocks ^ 2) by (apply Z.pow_pos_nonneg; lia).
  assert (H2 : blocks ^ 2 < (blocks + 1) ^ 2) by nia.
  assert (H3 : (0 < inject_Z ((blocks + 1) ^ 2))%Q).
  { replace 0%Q with (inject_Z 0) by reflexivity. rewrite <- Zlt_Qlt. lia. }
  split.
  - apply Qlt_shift_div_l; [exact H3|]. rewrite Qmult_0_l.
    replace 0%Q with (inject_Z 0) by reflexivity. now rewrite <- Zlt_Qlt.
  - apply Qlt_shift_div_r; [exact H3|]. rewrite Qmult_1_l.
    now rewrite <- Zlt_Qlt.
Qed.

Lemma Qpower_small (r : Q) (k : Z) :
  (0 < r)%Q -> (r < 1)%Q -> 1 <= k -> (0 < r ^ k)%Q /\ (r ^ k < 1)%Q.
Proof.
  intros H0 H1 Hk.
  assert (Hpos : (0 < r ^ k)%Q) by now apply Qpower_0_lt.
  split; [exact Hpos|].
  apply (Qinv_lt_contravar (r ^ k) 1); [exact Hpos|reflexivity|].
  change (/ 1)%Q with 1%Q. rewrite <- Qinv_power.
  apply Qpower_1_lt; [|lia].
  change 1%Q with (/ 1)%Q. apply (Qinv_lt_contravar r 1); auto. reflexivity.
Qed.

Lemma Qpower_large (r : Q) (k : Z) :
  (0 < r)%Q -> (r < 1)%Q -> k <= 0 -> (1 <= r ^ k)%Q.
Proof.
  intros H0 H1 Hk.
  destruct (Z.eq_dec k 0) as [->|Hne]; [discriminate|].
  replace k with (- (- k)) by lia. rewrite Qpower_opp.
  destruct (Qpower_small r (- k) H0 H1 ltac:(lia)) as [Hp Hl].
  apply Qlt_le_weak.
  change 1%Q with (/ 1)%Q. apply (Qinv_lt_contravar (r ^ (- k)) 1); auto.
  reflexivity.
Qed.

(** X5.  For [blocks >= 1] the probability [1 - ratio ^ k] of a block is
    at most 0 for the exponents -1 and 0, and between 0 and 1 for
    [k >= 1]; with [blocks + INTENSITY >= 5] (as for the defaults 9 and
    0) every block gets a probability between 0 and 1.  The bounds are
    not strict: they hold as well for the rounded values of the floats,
    where a large exponent gives the probability 1. *)
Theorem blockProbability_sign (g : globals) (blocks : Z) :
  1 <= blocks ->
  (forall k, -1 <= k <= 0 -> (1 - blockRatio blocks ^ k <= 0)%Q) /\
  (forall k, 1 <= k ->
     (0 <= 1 - blockRatio blocks ^ k)%Q /\ (1 - blockRatio blocks ^ k <= 1)%Q) /\
  (5 <= blocks + INTENSITY g ->
   always (fun p => (0 <= p)%Q /\ (p <= 1)%Q) (blockProbability g blocks)).
Proof.
  intros Hb. destruct (blockRatio_bounds blocks Hb) as [H0 H1].
  assert (Hneg : forall k, -1 <= k <= 0 -> (1 - blockRatio blocks ^ k <= 0)%Q).
  { intros k Hk. pose proof (Qpower_large _ k H0 H1 ltac:(lia)) as H.
    apply (Qplus_le_l _ _ (blockRatio blocks ^ k)). ring_simplify. exact H. }
  assert (Hpos : forall k, 1 <= k ->
            (0 <= 1 - blockRatio blocks ^ k)%Q /\
            (1 - blockRatio blocks ^ k <= 1)%Q).
  { intros k Hk. destruct (Qpower_small _ k H0 H1 Hk) as [Hp Hl].
    split; apply Qlt_le_weak.
    - apply (Qplus_lt_l _ _ (blockRatio blocks ^ k)). ring_simplify. exact Hl.
    - apply (Qplus_lt_l _ _ (blockRatio blocks ^ k)). ring_simplify.
      apply (Qplus_lt_l _ _ (-(1))). ring_simplify. exact Hp. }
  split; [exact Hneg|]. split; [exact Hpos|].
  intros H5. eapply always_mono; [|apply always_blockProbability; exact Hb].
  intros p (k & Hk & ->). apply Hpos. lia.
Qed.

Lemma blockProbability_sign_witness :
  1 <= 9 /\ 5 <= 9 + INTENSITY (plain 100 100 9 false) /\
  (forall k, -1 <= k <= 0 -> (1 - blockRatio 9 ^ k <= 0)%Q) /\
  (forall k, 1 <= k ->
     (0 <= 1 - blockRatio 9 ^ k)%Q /\ (1 - blockRatio 9 ^ k <= 1)%Q) /\
  always (fun p => (0 <= p)%Q /\ (p <= 1)%Q)
         (blockProbability (plain 100 100 9 false) 9).
Proof.
  assert (H1 : 1 <= 9) by lia.
  assert (H5 : 5 <= 9 + INTENSITY (plain 100 100 9 false)) by (vm_compute; discriminate).
  destruct (blockProbability_sign (plain 100 100 9 false) 9 H1)
    as (Hneg & Hpos & Hdef).
  split; [exact H1|]. split; [exact H5|]. split; [exact Hneg|].
  split; [exact Hpos|]. exact (Hdef H5).
Defined.

(** ** The start-up clamp and the order of the blocks *)


(** X6.  The start-up failsafe replaces the intensity by
    [max(intensity, 3 - blocks)].  With the intensity that it gives, the
    exponent of the probability of a block is at least -1, and the
    probability is at most 1. *)
Theorem clampIntensity_floor (blocks intensity : Z) :
  clampIntensity blocks intensity = Z.max intensity (3 - blocks) /\
  forall g : globals,
    INTENSITY g = clampIntensity blocks intensity -> 1 <= blocks ->
    always (fun p => (p <= 1)%Q /\
                     exists k, -1 <= k /\ p = (1 - blockRatio blocks ^ k)%Q)
           (blockProbability g blocks).
Proof.
  assert (Hc : clampIntensity blocks intensity = Z.max intensity (3 - blocks)).
  { unfold clampIntensity. destruct (Z.geb_spec (blocks + intensity) 3); lia. }
  split; [exact Hc|].
  intros g Hg Hb.
  eapply always_mono; [|apply always_blockProbability; exact Hb].
  intros p (k & Hk & ->). split.
  - destruct (blockRatio_bounds blocks Hb) as [H0 _].
    pose proof (Qpower_0_lt _ k H0) as Hp.
    apply Qlt_le_weak.
    apply (Qplus_lt_l _ _ (blockRatio blocks ^ k)). ring_simplify.
    apply (Qplus_lt_l _ _ (-(1))). ring_simplify. exact Hp.
  - exists k. split; [lia|reflexivity].
Qed.

Lemma clampIntensity_floor_witness :
  INTENSITY (plain 100 100 2 false) = clampIntensity 2 0 /\ 1 <= 2 /\
  clampIntensity 2 0 = Z.max 0 (3 - 2) /\
  always (fun p => (p <= 1)%Q /\
                   exists k, -1 <= k /\ p = (1 - blockRatio 2 ^ k)%Q)
         (blockProbability (plain 100 100 2 false) 2).
Proof.
  destruct (clampIntensity_floor 2 0) as [Hc Hp].
  split; [reflexivity|]. split; [lia|]. split; [exact Hc|].
  apply Hp; [reflexivity|lia].
Defined.

(** X7.  When both steps are at least 1, the blocks of a pass all have
    the size [hBlock] x [wBlock], start on multiples of the steps inside
    of the bound of the loops, and come in the order of the loops: by the
    first coordinate, then by the second, both strictly ascending. *)
Theorem blockTrace_order (g : globals) (blocks wBlock hBlock : Z) :
  1 <= blocks -> 0 <= wBlock -> 0 <= hBlock ->
  1 <= stride blocks wBlock -> 1 <= stride blocks hBlock ->
  exists fuel,
    always (fun r => exists log, r = Some log /\
              Forall (block_shape g blocks wBlock hBlock) log /\
              StronglySorted block_before log)
           (blockTrace fuel g blocks wBlock hBlock).
Proof.
  intros Hb Hw Hh Hsw Hsh.
  set (M := Z.max (IMAGE_WIDTH g) (IMAGE_HEIGHT g)).
  set (before := fun (ch cw : Z) (b : block) =>
                   let '(startW, startH, _, _, _) := b in
                   startW < ch \/ (startW = ch /\ startH < cw)).
  destruct (tiling_total
              (fun log startW startH endW endH p =>
                 Ret (log ++ [(startW, startH, endW, endH, p)]))
              g blocks wBlock hBlock Hb
              (fun ch log =>
                 (stride blocks hBlock | ch) /\
                 Forall (block_shape g blocks wBlock hBlock) log /\
                 StronglySorted block_before log /\
                 Forall (before ch 0) log)
              (fun ch cw log =>
                 (stride blocks hBlock | ch) /\
                 (stride blocks wBlock | cw) /\
                 3 * ch + 2 * hBlock <= 6 * M /\
                 Forall (block_shape g blocks wBlock hBlock) log /\
                 StronglySorted block_before log /\
                 Forall (before ch cw) log)
              []) as [fuel Hfuel]; try assumption.
  - split; [apply Z.divide_0_r|]. repeat split; constructor.
  - intros ch log Hch (Hd & Hs & Ho & Hbf) Hc.
    split; [exact Hd|]. split; [apply Z.divide_0_r|]. split; [exact Hc|].
    auto.
  - intros ch cw log p Hch Hcw (Hd & Hd' & Hc & Hs & Ho & Hbf) Hc' _. simpl.
    split; [exact Hd|]. split; [apply Z.divide_add_r; [exact Hd'|apply Z.divide_refl]|].
    split; [exact Hc|]. split; [|split].
    + apply Forall_app. split; [exact Hs|].
      constructor; [|constructor]. unfold block_shape. fold M.
      repeat (split; [first [reflexivity|assumption]|]). assumption.
    + apply StronglySorted_snoc; [exact Ho|].
      eapply Forall_impl; [exact Hbf|].
      intros [[[[a b] c] d] e] Hab. unfold before in Hab. exact Hab.
    + apply Forall_app. split.
      * eapply Forall_impl; [exact Hbf|].
        intros [[[[a b] c] d] e] Hab. unfold before in *. lia.
      * constructor; [|constructor]. unfold before. right. lia.
  - intros ch cw log Hch Hcw (Hd & Hd' & Hc & Hs & Ho & Hbf) Hc'.
    split; [apply Z.divide_add_r; [exact Hd|apply Z.divide_refl]|].
    split; [exact Hs|]. split; [exact Ho|].
    eapply Forall_impl; [exact Hbf|].
    intros [[[[a b] c] d] e] Hab. unfold before in *. lia.
  - exists fuel. unfold blockTrace. eapply always_mono; [|exact Hfuel].
    intros r (log & ch & -> & _ & (_ & Hs & Ho & _) & _). eauto.
Qed.

Lemma blockTrace_order_witness :
  1 <= 9 /\ 0 <= 11 /\ 1 <= stride 9 11 /\
  exists fuel,
    always (fun r => exists log, r = Some log /\
              Forall (block_shape (plain 100 100 9 false) 9 11 11) log /\
              StronglySorted block_before log)
           (blockTrace fuel (plain 100 100 9 false) 9 11 11).
Proof.
  assert (H1 : 1 <= 9) by lia.
  assert (H0 : 0 <= 11) by lia.
  assert (Hs : 1 <= stride 9 11) by (vm_compute; discriminate).
  split; [exact H1|]. split; [exact H0|]. split; [exact Hs|].
  exact (blockTrace_order (plain 100 100 9 false) 9 11 11 H1 H0 H0 Hs Hs).
Defined.

(** ** The crop and the names of the files *)
Lemma append_inj_r (s t u : string) :
  (s ++ t)%string = (s ++ u)%string -> t = u.
Proof. induction s as [|c s IH]; simpl; [auto|]. intros [= H]. auto. Qed.

Lemma string_length_append (s t : string) :
  String.length (s ++ t)%string = (String.length s + String.length t)%nat.
Proof. induction s as [|c s IH]; simpl; [reflexivity|]. now rewrite IH. Qed.

Lemma append_inj_l (s t u : string) :
  (s ++ u)%string = (t ++ u)%string -> s = t.
Proof.
  revert t. induction s as [|c s IH]; intros [|d t] H; simpl in H.
  - reflexivity.
  - apply (f_equal String.length) in H. simpl in H.
    rewrite string_length_append in H. lia.
  - apply (f_equal String.length) in H. simpl in H.
    rewrite string_length_append in H. lia.
  - injection H as -> H. f_equal. now apply IH.
Qed.

Lemma str_inj i j : str i = str j -> i = j.
Proof.
  unfold str. intros H.
  assert (E : Z.to_int i = Z.to_int j).
  { pose proof (NilEmpty.isi (Z.to_int i)) as Hi.
    pose proof (NilEmpty.isi (Z.to_int j)) as Hj.
    rewrite H in Hi. congruence. }
  rewrite <- (DecimalZ.of_to i), <- (DecimalZ.of_to j). now rewrite E.
Qed.

(** X11.  The files of two different iterations have different names, for
    a given input file and format. *)
Theorem outputName_distinct (FILENAME : string) (JPEG : option Z) (i j : Z) :
  outputName FILENAME i JPEG = outputName FILENAME j JPEG -> i = j.
Proof.
  unfold outputName. destruct JPEG; intros H;
    apply append_inj_r, append_inj_r, append_inj_l in H;
    now apply str_inj.
Qed.

Lemma outputName_distinct_witness :
  outputName "a.b.png" 3 None = outputName "a.b.png" (1 + 2) None /\
  outputName "a.b.png" 3 None = "a_out3.png"%string /\
  3 = 1 + 2.
Proof.
  split; [reflexivity|]. split; [reflexivity|].
  apply (outputName_distinct "a.b.png" None 3 (1 + 2)). reflexivity.
Defined.

Lemma int_mono x y : (x <= y)%Q -> int x <= int y.
Proof.
  intros H. unfold int.
  destruct (Qle_bool 0 x) eqn:Ex, (Qle_bool 0 y) eqn:Ey.
  - now apply Qfloor_resp_le.
  - apply Qle_bool_iff in Ex.
    assert (Hy : Qle_bool 0 y = true).
    { apply Qle_bool_iff. eapply Qle_trans; eauto. }
    congruence.
  - apply Qle_bool_iff in Ey.
    assert (Hx : (x <= 0)%Q).
    { apply Qnot_lt_le. intros Hlt. apply Qlt_le_weak in Hlt.
      apply Qle_bool_iff in Hlt. congruence. }
    apply Z.le_trans with 0.
    + change 0 with (Qceiling 0). now apply Qceiling_resp_le.
    + change 0 with (Qfloor 0). now apply Qfloor_resp_le.
  - now apply Qceiling_resp_le.
Qed.

(** X9.  With fuzzy edges the box that is cropped contains the box that
    is cropped without them: its left and top are not greater, its right
    and bottom not smaller. *)
Theorem cropBox_fuzzy_contains (abs_sin abs_cos : Z -> Q)
    (W H B I R P : Z) (D : bool) (im : canvas) :
  0 <= W -> 0 <= H -> 1 <= B ->
  (0 <= abs_sin R)%Q -> (0 <= abs_cos R)%Q ->
  let fuzzy := cropBox abs_sin abs_cos (Globals W H B D I R true P) im in
  let exact := cropBox abs_sin abs_cos (Globals W H B D I R false P) im in
  fuzzy.1.1.1 <= exact.1.1.1 /\ fuzzy.1.1.2 <= exact.1.1.2 /\
  exact.1.2 <= fuzzy.1.2 /\ exact.2 <= fuzzy.2.
Proof.
  intros HW HH HB Hs Hc. unfold cropBox. cbn [FUZZY_EDGES negb IMAGE_WIDTH
    IMAGE_HEIGHT BLOCKS ROTATION fst snd].
  set (trig := if Qle_bool (abs_sin R) (abs_cos R) then abs_cos R else abs_sin R).
  assert (Ht : (0 <= trig)%Q) by (unfold trig; destruct (Qle_bool _ _); auto).
  assert (Hf : forall d, 0 <= d -> (0 <= inject_Z d / inject_Z B * trig)%Q).
  { intros d Hd. apply Qmult_le_0_compat; [|exact Ht].
    apply Qle_shift_div_l.
    - replace 0%Q with (inject_Z 0) by reflexivity. rewrite <- Zlt_Qlt. lia.
    - rewrite Qmult_0_l. replace 0%Q with (inject_Z 0) by reflexivity.
      now rewrite <- Zle_Qle. }
  pose proof (Hf W HW) as HfW. pose proof (Hf H HH) as HfH.
  set (fW := (inject_Z W / inject_Z B * trig)%Q) in *.
  set (fH := (inject_Z H / inject_Z B * trig)%Q) in *.
  assert (Hsub : forall a f, (0 <= f)%Q -> ((a - f) / 2 <= (a - 0) / 2)%Q).
  { intros a f Hf0. apply Qmult_le_compat_r; [|discriminate].
    apply Qplus_le_r. apply Qopp_le_compat. exact Hf0. }
  assert (Hadd : forall c a f, (0 <= f)%Q ->
                   (c + (a + 0) / 2 <= c + (a + f) / 2)%Q).
  { intros c a f Hf0. apply Qplus_le_r.
    apply Qmult_le_compat_r; [|discriminate]. now apply Qplus_le_r. }
  repeat split; apply int_mono; auto.
Qed.

(** ** Division by zero, pictures of one colour *)

Lemma blockSize_neg1 d : blockSize d (-1) = - d.
Proof.
  unfold blockSize. transitivity (int (inject_Z (- d))); [|apply int_inject_Z].
  apply int_proper. unfold Qeq, Qdiv, Qmult, Qinv, inject_Z. simpl. lia.
Qed.

(** X10.  [glitch] raises [ZeroDivisionError] for [blocks = 0], when it
    computes the size of a block, whatever the angle.  For [blocks = -1]
    and an angle other than 0 and 90 degrees, for which no border is
    added, the loops get the rotated picture and [glitch] raises
    [ZeroDivisionError] when it computes the probability of the first
    block; no block is processed. *)
Theorem glitch_zero_division (rotate : canvas -> Z -> Z -> canvas)
    (g : globals) (image : canvas) (rotation : Z) :
  (forall fuel, glitch rotate fuel g image 0 rotation = Raise ZeroDivisionError) /\
  (0 <= IMAGE_WIDTH g -> 0 <= IMAGE_HEIGHT g ->
   rotation <> 0 -> Z.abs rotation <> 90 ->
   glitchInput rotate g image (-1) rotation
   = rotate image rotation (INTERPOLATION g) /\
   forall fuel,
     glitch rotate (S fuel) g image (-1) rotation = Raise ZeroDivisionError).
Proof.
  split; [reflexivity|].
  intros HW HH Hr0 Hr90. split.
  - unfold glitchInput.
    replace (rotation =? 0) with false by lia.
    replace (Z.abs rotation =? 90) with false by lia. reflexivity.
  - intros fuel. unfold glitch, truediv.
    change (-1 =? 0) with false. cbn [rbind].
    fold (blockSize (IMAGE_WIDTH g) (-1)). fold (blockSize (IMAGE_HEIGHT g) (-1)).
    rewrite !blockSize_neg1.
    unfold tiling. cbn [while_].
    rewrite max_outer.
    rewrite (proj2 (cond_iff 0 (- IMAGE_HEIGHT g) _)) by lia.
    cbn [while_ rbind].
    rewrite max_inner.
    rewrite (proj2 (cond_iff 0 (- IMAGE_WIDTH g) _)) by lia.
    reflexivity.
Qed.

Lemma glitch_zero_division_witness :
  0 <= IMAGE_WIDTH (plain 3 3 (-1) false) /\
  0 <= IMAGE_HEIGHT (plain 3 3 (-1) false) /\
  45 <> 0 /\ Z.abs 45 <> 90 /\
  (forall fuel,
     glitch (fun im _ _ => im) fuel (plain 3 3 (-1) false) (blank 3 3) 0 45
     = Raise ZeroDivisionError) /\
  glitchInput (fun im _ _ => im) (plain 3 3 (-1) false) (blank 3 3) (-1) 45
  = blank 3 3 /\
  (forall fuel,
     glitch (fun im _ _ => im) (S fuel) (plain 3 3 (-1) false) (blank 3 3)
            (-1) 45
     = Raise ZeroDivisionError).
Proof.
  assert (HW : 0 <= IMAGE_WIDTH (plain 3 3 (-1) false)) by (simpl; lia).
  assert (HH : 0 <= IMAGE_HEIGHT (plain 3 3 (-1) false)) by (simpl; lia).
  assert (H0 : 45 <> 0) by lia.
  assert (H90 : Z.abs 45 <> 90) by (simpl; lia).
  destruct (glitch_zero_division (fun im _ _ => im) (plain 3 3 (-1) false)
                                 (blank 3 3) 45) as [Hz Hm].
  destruct (Hm HW HH H0 H90) as [Hin Hraise].
  split; [exact HW|]. split; [exact HH|]. split; [exact H0|].
  split; [exact H90|]. split; [exact Hz|]. split; [exact Hin|]. exact Hraise.
Defined.

(** X8.  A picture of one colour is left as it is: by [pixSort], and by
    the loops of [glitch] for any fuel. *)
Theorem pixSort_keeps_uniform (g : globals) (image : canvas) (c : pixel) :
  (forall x y, pixels image x y = c) ->
  (forall startW startH endW endH p,
     always (fun image' => forall x y, pixels image' x y = c)
            (pixSort g image startW startH endW endH p)) /\
  (forall fuel blocks wBlock hBlock, 1 <= blocks ->
     always (fun r => forall image', r = Some image' ->
               forall x y, pixels image' x y = c)
            (tiling (pixSort g) fuel g blocks wBlock hBlock image)).
Proof.
  intros Hc. split.
  - intros startW startH endW endH p.
    eapply always_mono; [|apply (pixSort_uniform g image c); exact Hc].
    intros image' (_ & _ & H). exact H.
  - intros fuel blocks wBlock hBlock Hb.
    apply (tiling_partial (pixSort g) g blocks wBlock hBlock Hb
             (fun st => forall x y, pixels st x y = c)); [|exact Hc].
    intros st sW sH eW eH p Hst _.
    eapply always_mono; [|apply (pixSort_uniform g st c); exact Hst].
    intros image' (_ & _ & H). exact H.
Qed.

Lemma pixSort_keeps_uniform_witness :
  (forall x y, pixels (blank 3 3) x y = black) /\
  (forall startW startH endW endH p,
     always (fun image' => forall x y, pixels image' x y = black)
            (pixSort (plain 3 3 1 true) (blank 3 3) startW startH endW endH p)) /\
  (forall fuel blocks wBlock hBlock, 1 <= blocks ->
     always (fun r => forall image', r = Some image' ->
               forall x y, pixels image' x y = black)
            (tiling (pixSort (plain 3 3 1 true)) fuel (plain 3 3 1 true)
                    blocks wBlock hBlock (blank 3 3))).
Proof.
  assert (H : forall x y, pixels (blank 3 3) x y = black) by reflexivity.
  split; [exact H|].
  exact (pixSort_keeps_uniform (plain 3 3 1 true) (blank 3 3) black H).
Defined.

(** ** The border and the crop; blocks outside of the picture *)

Lemma cropBox_fuzzy_contains_witness :
  0 <= 100 /\ 1 <= 9 /\ (0 <= 0)%Q /\ (0 <= 1)%Q /\
  let fuzzy := cropBox (fun _ => 0%Q) (fun _ => 1%Q)
                       (Globals 100 100 9 false 0 0 true 0) (blank 122 122) in
  let exact := cropBox (fun _ => 0%Q) (fun _ => 1%Q)
                       (Globals 100 100 9 false 0 0 false 0) (blank 122 122) in
  fuzzy.1.1.1 <= exact.1.1.1 /\ fuzzy.1.1.2 <= exact.1.1.2 /\
  exact.1.2 <= fuzzy.1.2 /\ exact.2 <= fuzzy.2.
Proof.
  assert (H0 : 0 <= 100) by lia.
  assert (H1 : 1 <= 9) by lia.
  assert (Hs : (0 <= 0)%Q) by discriminate.
  assert (Hc : (0 <= 1)%Q) by discriminate.
  split; [exact H0|]. split; [exact H1|]. split; [exact Hs|]. split; [exact Hc|].
  exact (cropBox_fuzzy_contains (fun _ => 0%Q) (fun _ => 1%Q)
           100 100 9 0 0 0 false (blank 122 122) H0 H0 H1 Hs Hc).
Defined.

Lemma border_nonneg (g : globals) (blocks : Z) :
  1 <= blocks -> 0 <= IMAGE_WIDTH g -> 0 <= IMAGE_HEIGHT g ->
  0 <= border g blocks.
Proof.
  intros Hb HW HH. unfold border.
  destruct (blockSize_bounds (IMAGE_WIDTH g) blocks HW Hb) as [Hw _].
  destruct (blockSize_bounds (IMAGE_HEIGHT g) blocks HH Hb) as [Hh _].
  destruct (_ >=? _); assumption.
Qed.

(** X12.  Without fuzzy edges, the crop of [main] takes the border of
    [glitch] away: a padded picture that is cropped has the size and the
    pixels of the picture that was padded. *)
Theorem crop_undoes_border (abs_sin abs_cos : Z -> Q) (g : globals)
    (im : canvas) :
  FUZZY_EDGES g = false -> 1 <= BLOCKS g ->
  width im = IMAGE_WIDTH g -> height im = IMAGE_HEIGHT g ->
  let padded := expand im (border g (BLOCKS g)) in
  let out := crop padded (cropBox abs_sin abs_cos g padded) in
  width out = width im /\ height out = height im /\
  forall x y, getpixel out (x, y) = getpixel im (x, y).
Proof.
  intros HF Hb Hw Hh padded out.
  assert (Hbox : cropBox abs_sin abs_cos g padded
                 = (border g (BLOCKS g), border g (BLOCKS g),
                    IMAGE_WIDTH g + border g (BLOCKS g),
                    IMAGE_HEIGHT g + border g (BLOCKS g))).
  { apply cropBox_plain; [exact HF| |]; unfold padded; simpl; lia. }
  unfold out. rewrite Hbox. set (b := border g (BLOCKS g)).
  split; [simpl; lia|]. split; [simpl; lia|].
  intros x y. unfold getpixel at 1. unfold inside. cbn [crop width height fst snd].
  replace (IMAGE_WIDTH g + b - b) with (width im) by lia.
  replace (IMAGE_HEIGHT g + b - b) with (height im) by lia.
  unfold getpixel at 2. unfold inside. cbn [fst snd].
  destruct ((0 <=? x) && (x <? width im) && (0 <=? y) && (y <? height im))
    eqn:E; [|reflexivity].
  f_equal. cbn [pixels].
  assert (Hin : inside im (x, y) = true) by exact E.
  destruct (Z.le_gt_cases 0 b) as [Hb0|Hb0].
  - assert (Hpix : pixels padded (x + b) (y + b) = pixels im x y).
    { unfold padded. cbn [expand pixels]. fold b.
      replace (x + b - b) with x by lia. replace (y + b - b) with y by lia.
      unfold getpixel. now rewrite Hin. }
    assert (Hins : inside padded (x + b, y + b) = true).
    { unfold inside, padded. cbn [expand width height fst snd]. fold b.
      apply andb_true_iff in E as [E E4]. apply andb_true_iff in E as [E E3].
      apply andb_true_iff in E as [E1 E2].
      repeat (apply andb_true_iff; split); lia. }
    unfold getpixel. rewrite Hins. exact Hpix.
  - exfalso.
    destruct (blockSize_bounds (IMAGE_WIDTH g) (BLOCKS g)) as [H1 _];
      [|exact Hb|].
    + apply andb_true_iff in E as [E E4]. apply andb_true_iff in E as [E E3].
      apply andb_true_iff in E as [E1 E2]. lia.
    + unfold b, border in Hb0. 
      destruct (blockSize_bounds (IMAGE_HEIGHT g) (BLOCKS g)) as [H2 _];
        [|exact Hb|].
      * apply andb_true_iff in E as [E E4]. lia.
      * destruct (_ >=? _); lia.
Qed.

Lemma crop_undoes_border_witness :
  FUZZY_EDGES (plain 100 100 9 false) = false /\
  1 <= BLOCKS (plain 100 100 9 false) /\
  width (blank 100 100) = IMAGE_WIDTH (plain 100 100 9 false) /\
  height (blank 100 100) = IMAGE_HEIGHT (plain 100 100 9 false) /\
  let padded := expand (blank 100 100) (border (plain 100 100 9 false)
                                               (BLOCKS (plain 100 100 9 false))) in
  let out := crop padded (cropBox (fun _ => 0%Q) (fun _ => 1%Q)
                                  (plain 100 100 9 false) padded) in
  width out = width (blank 100 100) /\ height out = height (blank 100 100) /\
  forall x y, getpixel out (x, y) = getpixel (blank 100 100) (x, y).
Proof.
  assert (Hb : 1 <= BLOCKS (plain 100 100 9 false)) by (simpl; lia).
  split; [reflexivity|]. split; [exact Hb|]. split; [reflexivity|].
  split; [reflexivity|].
  exact (crop_undoes_border (fun _ => 0%Q) (fun _ => 1%Q)
           (plain 100 100 9 false) (blank 100 100) eq_refl Hb eq_refl eq_refl).
Defined.

Lemma restoreLine_nil p : always (fun l => l = []) (restoreLine p [] []).
Proof.
  unfold restoreLine. apply always_bind, always_probability; [|reflexivity].
  apply always_bind, always_randrange; [lia|]. intros c Hc. reflexivity.
Qed.

(** X13.  A block that starts outside of the picture, to the right of it
    or below it, is a no-op: [pixSort] returns the picture as it got
    it. *)
Theorem pixSort_outside (g : globals) (image : canvas)
    (startW startH endW endH : Z) (p : Q) :
  width image <= startH \/ height image <= startW ->
  always (fun image' => image' = image)
         (pixSort g image startW startH endW endH p).
Proof.
  intros Hout. unfold pixSort.
  apply (always_for_in (fun _ image' => image' = image)); auto.
  intros done y rest im' Hsplit ->.
  assert (Hy : startH <= y < endH).
  { apply range_In. rewrite Hsplit. apply in_or_app. right. now left. }
  apply always_bind, always_probability; [|reflexivity].
  rewrite readLine_eq.
  assert (Hnil : range startW (readStop image y startW endW) = []).
  { apply range_nil. unfold readStop.
    destruct ((0 <=? y) && (y <? width image) && (0 <=? startW)) eqn:E; [|lia].
    apply andb_true_iff in E as [E E3]. apply andb_true_iff in E as [E1 E2].
    lia. }
  rewrite Hnil. cbn [map rbind]. change (sortLine []) with (Ret (@nil pixel)).
  cbn [rbind]. apply always_bind.
  eapply always_mono; [|apply restoreLine_nil].
  intros l ->. reflexivity.
Qed.

Lemma pixSort_outside_witness :
  (width (blank 3 3) <= 5 \/ height (blank 3 3) <= 0) /\
  always (fun image' => image' = blank 3 3)
         (pixSort (plain 3 3 1 true) (blank 3 3) 0 5 3 8 (1 # 2)).
Proof.
  assert (H : width (blank 3 3) <= 5 \/ height (blank 3 3) <= 0)
    by (left; simpl; lia).
  split; [exact H|].
  exact (pixSort_outside (plain 3 3 1 true) (blank 3 3) 0 5 3 8 (1 # 2) H).
Defined.
